(** * chakra-file-uploader: the FileUploader component

    A shallow embedding of [src/components/FileUploader.tsx]: the drop
    traversal [getAllFileEntries], the directory draining
    [readAllDirectoryEntries], the two event handlers [onDrop] and
    [onChange], and the size formatter [formatFileSize].

    The browser objects the component talks to (entries, directory readers,
    [File], [FileReader], [FileList]) are modelled by what they answer when
    the component calls them. *)

From Stdlib Require Import ZArith String Ascii List Bool Lia Floats DecimalString.
Import ListNotations.

#[local] Set Warnings "-register-all".

Local Open Scope string_scope.
Local Open Scope list_scope.
Local Open Scope Z_scope.

(** ** JavaScript built-ins used by the component *)

Module JS.

(** [s.length] worth of characters removed from the front. *)
Fixpoint skip (n : nat) (s : string) : string :=
  match n, s with
  | O, _ => s
  | S n', String _ s' => skip n' s'
  | S _, EmptyString => EmptyString
  end.

(** [s.replace(searchValue, replaceValue)] with a string [searchValue]:
    only the first occurrence is replaced.  [replaceValue] is taken
    literally (the component only ever passes the empty string). *)
Fixpoint replace (s searchValue replaceValue : string) : string :=
  if String.prefix searchValue s
  then replaceValue ++ skip (String.length searchValue) s
  else match s with
       | EmptyString => EmptyString
       | String c s' => String c (replace s' searchValue replaceValue)
       end.

(** [s.split(sep)] for a one-character separator. *)
Fixpoint split (sep : ascii) (s : string) : list string :=
  match s with
  | EmptyString => [EmptyString]
  | String c s' =>
      if Ascii.eqb c sep then EmptyString :: split sep s'
      else match split sep s' with
           | seg :: segs => String c seg :: segs
           | [] => [String c EmptyString]
           end
  end.

(** [a[0]] on the array of strings returned by [split]. *)
Definition first (a : list string) : string := hd EmptyString a.

(** [s || d] on strings: the empty string is falsy. *)
Definition or_else (s d : string) : string :=
  match s with
  | EmptyString => d
  | _ => s
  end.

(** Decimal rendering of a non-negative integer. *)
Definition digits (z : Z) : string :=
  NilZero.string_of_uint (N.to_uint (Z.to_N z)).

(** The Number (IEEE binary64, round to nearest even) of an integer. *)
Definition number (z : Z) : float :=
  SF2Prim (binary_normalize 53 1024 z 0 false).

(** [Number.prototype.toFixed(1)] for a finite [0 <= x < 1e21]: with [n]
    the integer for which [n / 10 - x] is closest to zero (the larger one
    on a tie), the digits of [n] with a point before the last one.  The
    value of [x] is read exactly, as [m * 2^e]. *)
Definition tenths (x : float) : Z :=
  match Prim2SF x with
  | S754_finite false m e =>
      if 0 <=? e then 10 * Zpos m * 2 ^ e
      else (20 * Zpos m + 2 ^ (- e)) / 2 ^ (1 - e)
  | _ => 0
  end.

Definition toFixed1 (x : float) : string :=
  let n := tenths x in
  digits (n / 10) ++ "." ++ digits (n mod 10).

End JS.

(** ** Data model *)

(** [type: "file" | "folder"] *)
Inductive entryType : Type := file | folder.

(** [export interface fileType] *)
Record fileType : Type := {
  path : string;
  type : entryType;
  name : string;
  mimeType : string;
  data : string
}.

(** The [fileType] prop: ["image" | "video" | "audio" | "text" | "pdf" | "other"]. *)
Inductive fileTypeProp : Type := image | video | audio | text | pdf | other.

Definition literal (t : fileTypeProp) : string :=
  match t with
  | image => "image"
  | video => "video"
  | audio => "audio"
  | text => "text"
  | pdf => "pdf"
  | other => "other"
  end.

(** ** The platform, as seen by the component *)

(** What the code reads of a [File]. *)
Record File : Type := {
  file_name : string;
  file_size : Z;
  file_type : string
}.

(** The event a [FileReader] fires after [readAsDataURL]: [onload] with
    [reader.result], or [onerror]. *)
Inductive FileReaderEvent : Type :=
| onload (result : option string)
| onerror.

(** What [entry.file(successCallback)] does: it hands a [File] to the success
    callback (and the reader then fires its event), or it fails, and as the
    code passes no error callback nothing is ever called. *)
Inductive fileCall : Type :=
| successCallback (f : File) (ev : FileReaderEvent)
| noCallback.

(** One answer of [directoryReader.readEntries(resolve, reject)]. *)
Inductive readEntriesCall (E : Type) : Type :=
| resolve (batch : list E)
| reject.
Arguments resolve {E} batch.
Arguments reject {E}.

(** A [FileSystemEntry]: a file entry or a directory entry.  A directory
    carries the answers its reader gives to successive [readEntries] calls;
    once they are used up the reader answers with the empty batch. *)
Inductive FileSystemEntry : Type :=
| FileSystemFileEntry (entryName fullPath : string) (call : fileCall)
| FileSystemDirectoryEntry (entryName fullPath : string)
    (reader : list (readEntriesCall FileSystemEntry)).

Definition FileSystemDirectoryReader : Type :=
  list (readEntriesCall FileSystemEntry).

(** A [DataTransferItemList], each item given by its [webkitGetAsEntry()],
    which is [null] for an item that is not a file. *)
Definition DataTransferItemList : Type := list (option FileSystemEntry).

(** A [FileList], each index given by what [item(i)] returns and the event
    the reader of that file fires. *)
Definition FileList : Type := list (option (File * FileReaderEvent)).

(** ** Asynchronous results *)

Inductive Error : Type :=
| FileReaderError   (* the event passed to [reader.onerror] *)
| TypeError.        (* [undefined.length] *)

(** The promise returned by an async function, once nothing more can happen:
    fulfilled, rejected, or never settled. *)
Inductive Promise (A : Type) : Type :=
| Resolved (value : A)
| Rejected (reason : Error)
| Pending.
Arguments Resolved {A} value.
Arguments Rejected {A} reason.
Arguments Pending {A}.

(** How a loop over a state [S] ends: it returns the list, an [await]
    throws, or an [await] never resumes; the last two record the state the
    loop was left in. *)
Inductive Halt (S : Type) : Type :=
| Return (entries : list fileType)
| Throw (reason : Error) (state : S)
| Stuck (state : S).
Arguments Return {S} entries.
Arguments Throw {S} reason state.
Arguments Stuck {S} state.

Definition settle {S : Type} (h : Halt S) : Promise (list fileType) :=
  match h with
  | Return entries => Resolved entries
  | Throw reason _ => Rejected reason
  | Stuck _ => Pending
  end.

(** The calls made on the two props [onUploadStart] and [onUploadEnd]. *)
Inductive Callback : Type :=
| onUploadStart
| onUploadEnd (files : list fileType).

(** ** Directory readers *)

Definition readEntries (directoryReader : FileSystemDirectoryReader)
  : readEntriesCall FileSystemEntry * FileSystemDirectoryReader :=
  match directoryReader with
  | [] => (resolve [], [])
  | call :: directoryReader' => (call, directoryReader')
  end.

(** [readEntriesPromise]: the batch, or [undefined] ([None]) when the
    rejection was caught and logged. *)
Definition readEntriesPromise (directoryReader : FileSystemDirectoryReader)
  : option (list FileSystemEntry) * FileSystemDirectoryReader :=
  match readEntries directoryReader with
  | (resolve batch, directoryReader') => (Some batch, directoryReader')
  | (reject, directoryReader') => (None, directoryReader')
  end.

(** The [while (readEntries.length > 0)] loop of [readAllDirectoryEntries],
    entered with the value last read. *)
Fixpoint readAllDirectoryEntries_while
  (readEntries : option (list FileSystemEntry))
  (directoryReader : FileSystemDirectoryReader)
  (entries : list FileSystemEntry) : Promise (list FileSystemEntry) :=
  match readEntries with
  | None => Rejected TypeError
  | Some [] => Resolved entries
  | Some batch =>
      let entries := entries ++ batch in
      match directoryReader with
      | [] => Resolved entries
      | call :: directoryReader' =>
          readAllDirectoryEntries_while
            (fst (readEntriesPromise (call :: directoryReader')))
            directoryReader' entries
      end
  end.

Definition readAllDirectoryEntries (directoryReader : FileSystemDirectoryReader)
  : Promise (list FileSystemEntry) :=
  let (readEntries, directoryReader) := readEntriesPromise directoryReader in
  readAllDirectoryEntries_while readEntries directoryReader [].

(** ** Sizes, for the fuel of the traversal *)

Fixpoint entry_size (e : FileSystemEntry) : nat :=
  match e with
  | FileSystemFileEntry _ _ _ => 1
  | FileSystemDirectoryEntry _ _ reader =>
      S ((fix reader_size (r : list (readEntriesCall FileSystemEntry)) : nat :=
            match r with
            | [] => O
            | resolve batch :: r' =>
                ((fix batch_size (es : list FileSystemEntry) : nat :=
                    match es with
                    | [] => O
                    | e' :: es' => (entry_size e' + batch_size es')%nat
                    end) batch + reader_size r')%nat
            | reject :: r' => reader_size r'
            end) reader)
  end.

Fixpoint batch_size (es : list FileSystemEntry) : nat :=
  match es with
  | [] => O
  | e :: es' => (entry_size e + batch_size es')%nat
  end.

Fixpoint reader_size (r : FileSystemDirectoryReader) : nat :=
  match r with
  | [] => O
  | resolve batch :: r' => (batch_size batch + reader_size r')%nat
  | reject :: r' => reader_size r'
  end.

Definition read_size (readEntries : option (list FileSystemEntry)) : nat :=
  match readEntries with
  | Some batch => batch_size batch
  | None => O
  end.

Definition item_size (entry : option FileSystemEntry) : nat :=
  match entry with
  | Some e => entry_size e
  | None => 1
  end.

Fixpoint queue_size (queue : list (option FileSystemEntry)) : nat :=
  match queue with
  | [] => O
  | entry :: queue' => (item_size entry + queue_size queue')%nat
  end.

(** ** The component

    [maxSize] and [fileType_] are the two props the logic reads (the prop is
    called [fileType] in the source, like the interface). *)

Section FileUploader.

Variable maxSize : Z.
Variable fileType_ : fileTypeProp.

(** "Do all the checks": the condition of the [if] in [reader.onload],
    the same text in both handlers. *)
Definition checks (f : File) : bool :=
  ((maxSize =? -1) || (file_size f <? maxSize))
  && (String.eqb (JS.first (JS.split "/" (file_type f))) (literal fileType_)
      || (String.eqb (file_type f) "application/pdf"
          && String.eqb (literal fileType_) "pdf")
      || String.eqb (literal fileType_) "other").

(** The same condition as a proposition: the size test and the media-type
    test. *)
Definition accepted (f : File) : Prop :=
  (maxSize = -1 \/ file_size f < maxSize)
  /\ (JS.first (JS.split "/" (file_type f)) = literal fileType_
      \/ (file_type f = "application/pdf" /\ fileType_ = pdf)
      \/ fileType_ = other).

Definition result_toString (result : option string) : string :=
  match result with
  | Some s => JS.or_else s ""
  | None => ""
  end.

(** The object pushed for a file on the drop path. *)
Definition dropped_file (entryName fullPath : string) (f : File)
  (result : option string) : fileType :=
  {| path := JS.replace fullPath entryName "";
     type := file;
     name := file_name f;
     mimeType := JS.or_else (file_type f) "application/octet-stream";
     data := result_toString result |}.

(** The object pushed for a directory. *)
Definition dropped_folder (entryName fullPath : string) : fileType :=
  {| path := JS.replace fullPath entryName "";
     type := folder;
     name := entryName;
     mimeType := "folder/folder";
     data := "" |}.

(** The object pushed for a file chosen in the dialog. *)
Definition selected_file (f : File) (result : option string) : fileType :=
  {| path := "/";
     type := file;
     name := file_name f;
     mimeType := JS.or_else (file_type f) "application/octet-stream";
     data := result_toString result |}.

(** *** Drop traversal *)

(** The two local variables of [getAllFileEntries]. *)
Record State : Type := {
  queue : list (option FileSystemEntry);
  fileEntries : list fileType
}.

(** One turn of [while (queue.length > 0)]: the test, [queue.shift()] and
    the body. *)
Definition step (s : State) : State + Halt State :=
  match queue s with
  | [] => inr (Return (fileEntries s))
  | entry :: queue' =>
      match entry with
      | Some (FileSystemFileEntry entryName fullPath call) =>
          match call with
          | successCallback f (onload result) =>
              inl {| queue := queue';
                     fileEntries :=
                       if checks f
                       then fileEntries s
                            ++ [dropped_file entryName fullPath f result]
                       else fileEntries s |}
          | successCallback f onerror =>
              inr (Throw FileReaderError
                     {| queue := queue'; fileEntries := fileEntries s |})
          | noCallback =>
              inr (Stuck {| queue := queue'; fileEntries := fileEntries s |})
          end
      | Some (FileSystemDirectoryEntry entryName fullPath reader) =>
          let fileEntries' :=
            fileEntries s ++ [dropped_folder entryName fullPath] in
          match readAllDirectoryEntries reader with
          | Resolved children =>
              inl {| queue := queue' ++ map Some children;
                     fileEntries := fileEntries' |}
          | Rejected reason =>
              inr (Throw reason
                     {| queue := queue'; fileEntries := fileEntries' |})
          | Pending =>
              inr (Stuck {| queue := queue'; fileEntries := fileEntries' |})
          end
      | None => inl {| queue := queue'; fileEntries := fileEntries s |}
      end
  end.

(** The loop, for at most [fuel] turns. *)
Fixpoint while (fuel : nat) (s : State) : option (Halt State) :=
  match fuel with
  | O => None
  | S fuel' =>
      match step s with
      | inl s' => while fuel' s'
      | inr h => Some h
      end
  end.

(** The loop run from a state, with fuel for every entry that can ever be
    queued and the last test. *)
Definition run (s : State) : option (Halt State) :=
  while (S (queue_size (queue s))) s.

(** [reaches s s']: the loop started in [s] comes to the top of a turn in
    state [s']. *)
Inductive reaches : State -> State -> Prop :=
| reaches_here s : reaches s s
| reaches_turn s s' s'' :
    step s = inl s' -> reaches s' s'' -> reaches s s''.

Definition getAllFileEntries_halt (dataTransferItemList : DataTransferItemList)
  : option (Halt State) :=
  run {| queue := dataTransferItemList; fileEntries := [] |}.

(** [getAllFileEntries]; the fuel of [run] never runs out (see
    [run_halts]), so the last case does not occur. *)
Definition getAllFileEntries (dataTransferItemList : DataTransferItemList)
  : Promise (list fileType) :=
  match getAllFileEntries_halt dataTransferItemList with
  | Some h => settle h
  | None => Pending
  end.

(** The values of [queue.shift()] over the turns of the loop, in order. *)
Fixpoint dequeued (fuel : nat) (s : State) : list (option FileSystemEntry) :=
  match fuel with
  | O => []
  | S fuel' =>
      match queue s with
      | [] => []
      | entry :: _ =>
          entry :: match step s with
                   | inl s' => dequeued fuel' s'
                   | inr _ => []
                   end
      end
  end.

Definition visited (dataTransferItemList : DataTransferItemList)
  : list (option FileSystemEntry) :=
  dequeued (S (queue_size dataTransferItemList))
    {| queue := dataTransferItemList; fileEntries := [] |}.

(** What the body of the loop pushes for the entry it dequeued, when the
    turn completes. *)
Definition pushed (entry : option FileSystemEntry) : list fileType :=
  match entry with
  | Some (FileSystemFileEntry entryName fullPath
            (successCallback f (onload result))) =>
      if checks f then [dropped_file entryName fullPath f result] else []
  | Some (FileSystemDirectoryEntry entryName fullPath _) =>
      [dropped_folder entryName fullPath]
  | _ => []
  end.

(** *** The handlers *)

(** [e.dataTransfer]: [files.length] and [items]. *)
Record DataTransfer : Type := {
  files_length : nat;
  items : DataTransferItemList
}.

(** [onDrop]: the calls made on the props, and the handler's promise. *)
Definition onDrop (dataTransfer : DataTransfer)
  : list Callback * Promise unit :=
  if (0 <? files_length dataTransfer)%nat then
    match getAllFileEntries (items dataTransfer) with
    | Resolved items' => ([onUploadStart; onUploadEnd items'], Resolved tt)
    | Rejected reason => ([onUploadStart], Rejected reason)
    | Pending => ([onUploadStart], Pending)
    end
  else ([], Resolved tt).

(** The [for] loop of [onChange] from index [i] on: [files] holds
    [item(i)], [item(i + 1)], ... up to [length - 1]; the state left on a
    failure is the items not reached and the list built so far. *)
Fixpoint onChange_for (files : FileList) (items : list fileType)
  : Halt (FileList * list fileType) :=
  match files with
  | [] => Return items
  | item :: files' =>
      match item with
      | Some (f, onload result) =>
          onChange_for files'
            (if checks f then items ++ [selected_file f result] else items)
      | Some (_, onerror) => Throw FileReaderError (files', items)
      | None => Stuck (files', items)
      end
  end.

(** The reader of a selected file fires [onload]. *)
Definition loads (item : option (File * FileReaderEvent)) : bool :=
  match item with
  | Some (_, onload _) => true
  | _ => false
  end.

(** [onChange], given [e.target.files] (which may be [null]). *)
Definition onChange (target_files : option FileList)
  : list Callback * Promise unit :=
  match target_files with
  | Some (item :: files') =>
      match settle (onChange_for (item :: files') []) with
      | Resolved items' => ([onUploadStart; onUploadEnd items'], Resolved tt)
      | Rejected reason => ([onUploadStart], Rejected reason)
      | Pending => ([onUploadStart], Pending)
      end
  | _ => ([], Resolved tt)
  end.

End FileUploader.

(** ** Size formatting *)

(** [formatFileSize(bytes)] for an integral [bytes].  The quotient is the
    binary64 division the code performs; [toFixed(1)] renders it (below
    [1e21], which every byte count under [1e29] stays under). *)
Definition formatFileSize (bytes : Z) : string :=
  if 1000000000000 <=? bytes then
    JS.toFixed1 (JS.number bytes / JS.number 100000000000)%float ++ " TB"
  else if 1000000000 <=? bytes then
    JS.toFixed1 (JS.number bytes / JS.number 100000000)%float ++ " GB"
  else if 1000000 <=? bytes then
    JS.toFixed1 (JS.number bytes / JS.number 1000000)%float ++ " MB"
  else if 1000 <=? bytes then
    JS.toFixed1 (JS.number bytes / JS.number 1000)%float ++ " KB"
  else if 1 <? bytes then
    JS.digits bytes ++ " bytes"
  else if bytes =? 1 then
    JS.digits bytes ++ " byte"
  else "0 GB".

(** ** The rest of the component: what is rendered *)

(** The [accept] attribute of the file input. *)
Definition accept (fileType_ : fileTypeProp) : string :=
  if String.eqb (literal fileType_) "pdf" then "application/pdf"
  else if String.eqb (literal fileType_) "other" then "*"
  else literal fileType_ ++ "/*".

(** The first child of the caption: the chain of conditionals on the
    [fileType] prop. *)
Definition caption_kind (fileType_ : fileTypeProp) : string :=
  if String.eqb (literal fileType_) "audio" then "Audio files"
  else if String.eqb (literal fileType_) "image" then "Image files"
  else if String.eqb (literal fileType_) "video" then "Video files"
  else if String.eqb (literal fileType_) "text" then "Text files"
  else if String.eqb (literal fileType_) "pdf" then "PDF files"
  else if String.eqb (literal fileType_) "other" then "Any type of file"
  else "".

(** The text of the caption: its four children, the kind, [" "], the text
    ["up to "] and [formatFileSize(maxSize)]. *)
Definition caption (maxSize : Z) (fileType_ : fileTypeProp) : string :=
  caption_kind fileType_ ++ " " ++ "up to " ++ formatFileSize maxSize.

(** The three drag handlers, as far as [e.currentTarget.style.opacity] goes:
    [showOver && (style.opacity = ...)]. *)
Definition onDragOver_opacity (showOver : bool) (opacity : string) : string :=
  if showOver then "0.6" else opacity.

Definition onDragLeave_opacity (showOver : bool) (opacity : string) : string :=
  if showOver then "1" else opacity.

Definition onDrop_opacity (showOver : bool) (opacity : string) : string :=
  if showOver then "1" else opacity.

Inductive DragEvent : Type := dragover | dragleave | drop.

Definition dispatch (showOver : bool) (opacity : string) (e : DragEvent)
  : string :=
  match e with
  | dragover => onDragOver_opacity showOver opacity
  | dragleave => onDragLeave_opacity showOver opacity
  | drop => onDrop_opacity showOver opacity
  end.

(** The opacity after a sequence of drag events. *)
Definition opacity_after (showOver : bool) (events : list DragEvent)
  (opacity : string) : string :=
  fold_left (dispatch showOver) events opacity.

(** ** The demo page ([src/test/pages/index.tsx]) *)

Module Page.

(** The two counts its [onUploadEnd] logs: the lengths of
    [items.filter(e => { if (e.type == "file") return e; })] and of the same
    with ["folder"]. *)
Definition totFiles (items : list fileType) : nat :=
  length (filter (fun e => match type e with file => true | folder => false end)
            items).

Definition totFolders (items : list fileType) : nat :=
  length (filter (fun e => match type e with folder => true | file => false end)
            items).

(** The props the page passes. *)
Definition maxSize : Z := 10 * 1000000.
Definition fileType_ : fileTypeProp := other.

End Page.

(** ** Vocabulary for the properties *)

Definition is_entry (entry : option FileSystemEntry) : bool :=
  match entry with
  | Some _ => true
  | None => false
  end.

Definition is_directory (entry : option FileSystemEntry) : bool :=
  match entry with
  | Some (FileSystemDirectoryEntry _ _ _) => true
  | _ => false
  end.

(** A dequeued entry that gets a File entry: a file that loaded and passes
    the checks. *)
Definition is_accepted_file (maxSize : Z) (fileType_ : fileTypeProp)
  (entry : option FileSystemEntry) : bool :=
  match entry with
  | Some (FileSystemFileEntry _ _ (successCallback f (onload _))) =>
      checks maxSize fileType_ f
  | _ => false
  end.

Definition is_folder (e : fileType) : bool :=
  match type e with
  | folder => true
  | file => false
  end.

(** Two outcomes of the traversal that differ at most in their File
    entries. *)
Definition same_but_files (p p' : Promise (list fileType)) : Prop :=
  match p, p' with
  | Resolved out, Resolved out' => filter is_folder out = filter is_folder out'
  | Rejected reason, Rejected reason' => reason = reason'
  | Pending, Pending => True
  | _, _ => False
  end.

(** An entry whose turn of the loop completes: a [null], a file that loads,
    a directory whose reader can be drained. *)
Definition readable (entry : option FileSystemEntry) : bool :=
  match entry with
  | None => true
  | Some (FileSystemFileEntry _ _ (successCallback _ (onload _))) => true
  | Some (FileSystemFileEntry _ _ _) => false
  | Some (FileSystemDirectoryEntry _ _ reader) =>
      match readAllDirectoryEntries reader with
      | Resolved _ => true
      | _ => false
      end
  end.

(** The children a dequeued entry adds to the queue. *)
Definition children (entry : option FileSystemEntry)
  : list (option FileSystemEntry) :=
  match entry with
  | Some (FileSystemDirectoryEntry _ _ reader) =>
      match readAllDirectoryEntries reader with
      | Resolved es => map Some es
      | _ => []
      end
  | _ => []
  end.

(** A file dropped on its own: the platform names the entry after the file
    and puts it at the root. *)
Definition dropped_alone (fe : File * FileReaderEvent)
  : option FileSystemEntry :=
  Some (FileSystemFileEntry (file_name (fst fe)) ("/" ++ file_name (fst fe))
          (successCallback (fst fe) (snd fe))).

(** * Properties *)

(** ** Fuel: the traversal always halts *)

Lemma entry_size_directory entryName fullPath reader :
  entry_size (FileSystemDirectoryEntry entryName fullPath reader)
  = S (reader_size reader).
Proof. reflexivity. Qed.

Lemma entry_size_pos e : (0 < entry_size e)%nat.
Proof. destruct e; simpl; lia. Qed.

Lemma batch_size_app es es' :
  batch_size (es ++ es') = (batch_size es + batch_size es')%nat.
Proof. induction es as [|e es IH]; simpl; [reflexivity | rewrite IH; lia]. Qed.

Lemma queue_size_app q q' :
  queue_size (q ++ q') = (queue_size q + queue_size q')%nat.
Proof. induction q as [|x q IH]; simpl; [reflexivity | rewrite IH; lia]. Qed.

Lemma queue_size_children es : queue_size (map Some es) = batch_size es.
Proof. induction es as [|e es IH]; simpl; [reflexivity | rewrite IH; reflexivity]. Qed.

Lemma readAllDirectoryEntries_while_size directoryReader :
  forall readEntries entries children,
    readAllDirectoryEntries_while readEntries directoryReader entries
    = Resolved children ->
    (batch_size children
     <= batch_size entries + read_size readEntries + reader_size directoryReader)%nat.
Proof.
  induction directoryReader as [|call r IH]; intros [[|e batch]|] entries children H;
    simpl in H; try discriminate.
  - injection H as <-. simpl. lia.
  - injection H as <-. rewrite batch_size_app. simpl. lia.
  - injection H as <-. simpl. lia.
  - apply IH in H. rewrite batch_size_app in H.
    destruct call as [batch'|]; simpl in *; lia.
Qed.

Lemma readAllDirectoryEntries_size directoryReader children :
  readAllDirectoryEntries directoryReader = Resolved children ->
  (batch_size children <= reader_size directoryReader)%nat.
Proof.
  unfold readAllDirectoryEntries. intros H.
  destruct directoryReader as [|call r]; simpl in H.
  - injection H as <-. simpl. lia.
  - destruct call as [batch|]; simpl in H;
      apply readAllDirectoryEntries_while_size in H; simpl in *; lia.
Qed.

Lemma step_decreases maxSize ft s s' :
  step maxSize ft s = inl s' ->
  (queue_size (queue s') < queue_size (queue s))%nat.
Proof.
  unfold step. destruct s as [q entries]; simpl.
  destruct q as [|[[entryName fullPath call|entryName fullPath reader]|] q'];
    try discriminate.
  - destruct call as [f [result|]|]; try discriminate.
    intros H; injection H as <-. simpl. lia.
  - destruct (readAllDirectoryEntries reader) as [children| |] eqn:E;
      try discriminate.
    intros H; injection H as <-.
    apply readAllDirectoryEntries_size in E.
    cbn [queue]. rewrite queue_size_app, queue_size_children.
    cbn [queue_size item_size]. rewrite entry_size_directory. lia.
  - intros H; injection H as <-. simpl. lia.
Qed.

Lemma while_halts maxSize ft fuel :
  forall s, (queue_size (queue s) < fuel)%nat ->
            exists h, while maxSize ft fuel s = Some h.
Proof.
  induction fuel as [|fuel IH]; intros s Hs; [lia|].
  simpl. destruct (step maxSize ft s) as [s'|h] eqn:E.
  - apply IH. apply step_decreases in E. lia.
  - exists h. reflexivity.
Qed.

Lemma while_more_fuel maxSize ft fuel :
  forall s h fuel', while maxSize ft fuel s = Some h -> (fuel <= fuel')%nat ->
                    while maxSize ft fuel' s = Some h.
Proof.
  induction fuel as [|fuel IH]; intros s h fuel' H Hle; [discriminate|].
  destruct fuel' as [|fuel']; [lia|].
  simpl in *. destruct (step maxSize ft s) as [s'|h'].
  - apply IH with (1 := H). lia.
  - exact H.
Qed.

(** The loop always halts: [run] never runs out of fuel. *)
Lemma run_halts maxSize ft s : exists h, run maxSize ft s = Some h.
Proof. apply while_halts. lia. Qed.

(** The two equations of the loop, free of fuel. *)
Lemma run_continue maxSize ft s s' :
  step maxSize ft s = inl s' -> run maxSize ft s = run maxSize ft s'.
Proof.
  intros E. destruct (run_halts maxSize ft s') as [h Hh]. rewrite Hh.
  unfold run in *. simpl. rewrite E.
  apply while_more_fuel with (1 := Hh).
  apply step_decreases in E. lia.
Qed.

Lemma run_halt maxSize ft s h :
  step maxSize ft s = inr h -> run maxSize ft s = Some h.
Proof. intros E. unfold run. simpl. rewrite E. reflexivity. Qed.

Lemma run_unfold maxSize ft s :
  run maxSize ft s
  = match step maxSize ft s with
    | inl s' => run maxSize ft s'
    | inr h => Some h
    end.
Proof.
  destruct (step maxSize ft s) as [s'|h] eqn:E.
  - apply run_continue, E.
  - apply run_halt, E.
Qed.

Lemma reaches_run maxSize ft s s' :
  reaches maxSize ft s s' -> run maxSize ft s = run maxSize ft s'.
Proof.
  induction 1 as [s|s s' s'' E _ IH]; [reflexivity|].
  rewrite (run_continue _ _ _ _ E). exact IH.
Qed.

(** The list only grows: a turn appends to [fileEntries]. *)
Lemma step_appends maxSize ft s s' :
  step maxSize ft s = inl s' ->
  exists pushed, fileEntries s' = fileEntries s ++ pushed.
Proof.
  unfold step. destruct s as [q entries]; simpl.
  destruct q as [|[[entryName fullPath call|entryName fullPath reader]|] q'];
    try discriminate.
  - destruct call as [f [result|]|]; try discriminate.
    intros H; injection H as <-. simpl.
    destruct (checks maxSize ft f); eexists; [reflexivity|].
    symmetry; apply app_nil_r.
  - destruct (readAllDirectoryEntries reader); try discriminate.
    intros H; injection H as <-. simpl. eexists; reflexivity.
  - intros H; injection H as <-. exists []. symmetry; apply app_nil_r.
Qed.

Lemma while_extends maxSize ft fuel :
  forall s out, while maxSize ft fuel s = Some (Return out) ->
                exists rest, out = fileEntries s ++ rest.
Proof.
  induction fuel as [|fuel IH]; intros s out H; [discriminate|].
  simpl in H. destruct (step maxSize ft s) as [s'|h] eqn:E.
  - destruct (step_appends _ _ _ _ E) as [pushed Hp].
    destruct (IH _ _ H) as [rest ->].
    exists (pushed ++ rest). rewrite Hp, app_assoc. reflexivity.
  - injection H as ->. unfold step in E.
    destruct (queue s) as [|[[? ? [? [?|]|]|? ? reader]|] ?]; try discriminate.
    + injection E as <-. exists []. symmetry; apply app_nil_r.
    + destruct (readAllDirectoryEntries reader); discriminate.
Qed.

(** ** The checks *)

Lemma literal_pdf ft : String.eqb (literal ft) "pdf" = true <-> ft = pdf.
Proof. destruct ft; simpl; split; congruence. Qed.

Lemma literal_other ft : String.eqb (literal ft) "other" = true <-> ft = other.
Proof. destruct ft; simpl; split; congruence. Qed.

Lemma checks_accepted maxSize ft f :
  checks maxSize ft f = true <-> accepted maxSize ft f.
Proof.
  unfold checks, accepted.
  rewrite andb_true_iff, !orb_true_iff, andb_true_iff.
  rewrite Z.eqb_eq, Z.ltb_lt, !String.eqb_eq.
  rewrite <- (String.eqb_eq (literal ft) "pdf"), literal_pdf.
  rewrite <- (String.eqb_eq (literal ft) "other"), literal_other.
  tauto.
Qed.

Lemma checks_rejected maxSize ft f :
  checks maxSize ft f = false <-> ~ accepted maxSize ft f.
Proof.
  rewrite <- checks_accepted. destruct (checks maxSize ft f); split; congruence.
Qed.

(** C1. On both paths a file whose read completes gets a File entry
    appended exactly when it passes the size test ([maxSize] is [-1] or the
    size is below [maxSize]) and the media-type test (first segment of the
    type equal to the configured category, or [application/pdf] under
    ["pdf"], or category ["other"]); a file that fails is skipped with no
    entry, and in both cases the loop goes on to the next entry without an
    error. *)
Theorem C1_entry_iff_checks maxSize ft f result :
  (forall entryName fullPath queue' entries,
      let s := {| queue := Some (FileSystemFileEntry entryName fullPath
                                   (successCallback f (onload result)))
                           :: queue';
                  fileEntries := entries |} in
      type (dropped_file entryName fullPath f result) = file
      /\ (accepted maxSize ft f ->
          step maxSize ft s
          = inl {| queue := queue';
                   fileEntries :=
                     entries ++ [dropped_file entryName fullPath f result] |})
      /\ (~ accepted maxSize ft f ->
          step maxSize ft s = inl {| queue := queue'; fileEntries := entries |}))
  /\ (forall files' items,
         type (selected_file f result) = file
         /\ (accepted maxSize ft f ->
             onChange_for maxSize ft (Some (f, onload result) :: files') items
             = onChange_for maxSize ft files'
                 (items ++ [selected_file f result]))
         /\ (~ accepted maxSize ft f ->
             onChange_for maxSize ft (Some (f, onload result) :: files') items
             = onChange_for maxSize ft files' items)).
Proof.
  split.
  - intros entryName fullPath queue' entries s.
    split; [reflexivity|]. subst s. unfold step; simpl.
    split; intros H.
    + apply checks_accepted in H. rewrite H. reflexivity.
    + apply checks_rejected in H. rewrite H. reflexivity.
  - intros files' items. split; [reflexivity|]. simpl.
    split; intros H.
    + apply checks_accepted in H. rewrite H. reflexivity.
    + apply checks_rejected in H. rewrite H. reflexivity.
Qed.

(** ** Directories *)

Lemma reaches_extends maxSize ft s s' :
  reaches maxSize ft s s' ->
  exists rest, fileEntries s' = fileEntries s ++ rest.
Proof.
  induction 1 as [s|s s' s'' E _ [rest IH]].
  - exists []. symmetry; apply app_nil_r.
  - destruct (step_appends _ _ _ _ E) as [pushed Hp].
    exists (pushed ++ rest). rewrite IH, Hp, app_assoc. reflexivity.
Qed.

(** C2. A turn of the loop that dequeues a directory appends exactly one
    Folder entry, built from the directory alone (neither [maxSize] nor the
    category is consulted), whatever its reader then answers; the children
    are queued only after that, so at every later turn, and in the list
    finally returned, the Folder entry is already in place and whatever the
    children produce comes after it. *)
Theorem C2_one_folder_entry maxSize ft entryName fullPath reader queue' entries :
  let s := {| queue := Some (FileSystemDirectoryEntry entryName fullPath reader)
                       :: queue';
              fileEntries := entries |} in
  let pushed := dropped_folder entryName fullPath in
  type pushed = folder
  /\ match step maxSize ft s with
     | inl s' =>
         fileEntries s' = entries ++ [pushed]
         /\ exists children,
             readAllDirectoryEntries reader = Resolved children
             /\ queue s' = queue' ++ map Some children
     | inr (Throw _ st) | inr (Stuck st) =>
         fileEntries st = entries ++ [pushed]
     | inr (Return _) => False
     end
  /\ (forall s' s'',
         step maxSize ft s = inl s' -> reaches maxSize ft s' s'' ->
         exists rest, fileEntries s'' = entries ++ pushed :: rest)
  /\ (forall out,
         run maxSize ft s = Some (Return out) ->
         exists rest, out = entries ++ pushed :: rest).
Proof.
  intros s pushed.
  assert (Hstep : forall s', step maxSize ft s = inl s' ->
                             fileEntries s' = entries ++ [pushed]).
  { subst s. unfold step; simpl.
    destruct (readAllDirectoryEntries reader); try discriminate.
    intros s' H; injection H as <-. reflexivity. }
  split; [reflexivity|]. split; [|split].
  - subst s. unfold step; simpl.
    destruct (readAllDirectoryEntries reader) as [children| |]; simpl.
    + split; [reflexivity|]. exists children. split; reflexivity.
    + reflexivity.
    + reflexivity.
  - intros s' s'' E R. apply Hstep in E.
    destruct (reaches_extends _ _ _ _ R) as [rest Hr].
    exists rest. rewrite Hr, E, <- app_assoc. reflexivity.
  - intros out H. rewrite run_unfold in H.
    destruct (step maxSize ft s) as [s'|h] eqn:E.
    + specialize (Hstep _ eq_refl).
      destruct (while_extends _ _ _ _ _ H) as [rest ->].
      exists rest. rewrite Hstep, <- app_assoc. reflexivity.
    + exfalso. injection H as ->. subst s. unfold step in E; simpl in E.
      destruct (readAllDirectoryEntries reader); discriminate.
Qed.

(** C3. The queue starts as the dropped items and a directory's children go
    to its tail.  So for a drop of folder A (whose reader yields the single
    child file A1) and file B, in either order, with both files passing the
    checks, the returned list has the Folder A entry and the file B entry
    before the file A1 entry. *)
Theorem C3_breadth_first maxSize ft
  nameA pathA readerA nameA1 pathA1 fA1 resultA1 nameB pathB fB resultB :
  let A1 := FileSystemFileEntry nameA1 pathA1
              (successCallback fA1 (onload resultA1)) in
  let A := FileSystemDirectoryEntry nameA pathA readerA in
  let B := FileSystemFileEntry nameB pathB
             (successCallback fB (onload resultB)) in
  readAllDirectoryEntries readerA = Resolved [A1] ->
  accepted maxSize ft fA1 ->
  accepted maxSize ft fB ->
  (forall dataTransferItemList,
      getAllFileEntries_halt maxSize ft dataTransferItemList
      = run maxSize ft {| queue := dataTransferItemList; fileEntries := [] |})
  /\ (forall entryName fullPath reader children queue' entries,
         readAllDirectoryEntries reader = Resolved children ->
         step maxSize ft
           {| queue := Some (FileSystemDirectoryEntry entryName fullPath reader)
                       :: queue';
              fileEntries := entries |}
         = inl {| queue := queue' ++ map Some children;
                  fileEntries := entries ++ [dropped_folder entryName fullPath] |})
  /\ getAllFileEntries maxSize ft [Some A; Some B]
     = Resolved [dropped_folder nameA pathA;
                 dropped_file nameB pathB fB resultB;
                 dropped_file nameA1 pathA1 fA1 resultA1]
  /\ getAllFileEntries maxSize ft [Some B; Some A]
     = Resolved [dropped_file nameB pathB fB resultB;
                 dropped_folder nameA pathA;
                 dropped_file nameA1 pathA1 fA1 resultA1].
Proof.
  intros A1 A B HA HA1 HB.
  apply checks_accepted in HA1, HB.
  assert (Hdirs : forall entryName fullPath reader children queue' entries,
             readAllDirectoryEntries reader = Resolved children ->
             step maxSize ft
               {| queue := Some (FileSystemDirectoryEntry entryName fullPath reader)
                           :: queue';
                  fileEntries := entries |}
             = inl {| queue := queue' ++ map Some children;
                      fileEntries :=
                        entries ++ [dropped_folder entryName fullPath] |}).
  { intros ? ? ? ? ? ? H. unfold step; simpl. rewrite H. reflexivity. }
  assert (Hdir : forall queue' entries,
             step maxSize ft {| queue := Some A :: queue'; fileEntries := entries |}
             = inl {| queue := queue' ++ [Some A1];
                      fileEntries := entries ++ [dropped_folder nameA pathA] |}).
  { intros. apply (Hdirs _ _ _ _ _ _ HA). }
  assert (Hfile : forall n p f r queue' entries,
             checks maxSize ft f = true ->
             step maxSize ft
               {| queue := Some (FileSystemFileEntry n p
                                   (successCallback f (onload r))) :: queue';
                  fileEntries := entries |}
             = inl {| queue := queue';
                      fileEntries := entries ++ [dropped_file n p f r] |}).
  { intros n p f r queue' entries H. unfold step; simpl. rewrite H. reflexivity. }
  split; [reflexivity|]. split; [exact Hdirs|].
  unfold getAllFileEntries, getAllFileEntries_halt. split.
  - rewrite run_unfold, Hdir. simpl app.
    rewrite run_unfold. unfold B at 1. rewrite (Hfile _ _ _ _ _ _ HB). simpl app.
    rewrite run_unfold. unfold A1 at 1. rewrite (Hfile _ _ _ _ _ _ HA1). simpl app.
    rewrite run_unfold. reflexivity.
  - rewrite run_unfold. unfold B at 1. rewrite (Hfile _ _ _ _ _ _ HB). simpl app.
    rewrite run_unfold, Hdir. simpl app.
    rewrite run_unfold. unfold A1 at 1. rewrite (Hfile _ _ _ _ _ _ HA1). simpl app.
    rewrite run_unfold. reflexivity.
Qed.

Lemma C3_breadth_first_witness :
  getAllFileEntries (-1) other
    [Some (FileSystemDirectoryEntry "A" "/A"
             [resolve [FileSystemFileEntry "A1" "/A/A1"
                         (successCallback
                            {| file_name := "A1"; file_size := 3;
                               file_type := "text/plain" |}
                            (onload (Some "data:text/plain;base64,YTEK")))]]);
     Some (FileSystemFileEntry "B" "/B"
             (successCallback
                {| file_name := "B"; file_size := 2; file_type := "" |}
                (onload (Some "data:application/octet-stream;base64,Ygo="))))]
  = Resolved
      [{| path := "/"; type := folder; name := "A";
          mimeType := "folder/folder"; data := "" |};
       {| path := "/"; type := file; name := "B";
          mimeType := "application/octet-stream";
          data := "data:application/octet-stream;base64,Ygo=" |};
       {| path := "/A/"; type := file; name := "A1";
          mimeType := "text/plain";
          data := "data:text/plain;base64,YTEK" |}].
Proof.
  exact (proj1 (proj2 (proj2
           (C3_breadth_first (-1) other
              "A" "/A"
              [resolve [FileSystemFileEntry "A1" "/A/A1"
                          (successCallback
                             {| file_name := "A1"; file_size := 3;
                                file_type := "text/plain" |}
                             (onload (Some "data:text/plain;base64,YTEK")))]]
              "A1" "/A/A1"
              {| file_name := "A1"; file_size := 3; file_type := "text/plain" |}
              (Some "data:text/plain;base64,YTEK")
              "B" "/B"
              {| file_name := "B"; file_size := 2; file_type := "" |}
              (Some "data:application/octet-stream;base64,Ygo=")
              eq_refl
              (conj (or_introl eq_refl) (or_intror (or_intror eq_refl)))
              (conj (or_introl eq_refl) (or_intror (or_intror eq_refl))))))).
Defined.

(** ** Draining a directory reader *)

Lemma readAllDirectoryEntries_while_done directoryReader entries :
  readAllDirectoryEntries_while (Some []) directoryReader entries
  = Resolved entries.
Proof. destruct directoryReader; reflexivity. Qed.

(** The body of the [while]: push the batch, read again. *)
Lemma readAllDirectoryEntries_while_batch batch directoryReader entries :
  batch <> [] ->
  readAllDirectoryEntries_while (Some batch) directoryReader entries
  = readAllDirectoryEntries_while
      (fst (readEntriesPromise directoryReader))
      (snd (readEntriesPromise directoryReader))
      (entries ++ batch).
Proof.
  intros Hne. destruct batch as [|e batch]; [contradiction|].
  destruct directoryReader as [|[batch'|] r]; reflexivity.
Qed.

Lemma readAllDirectoryEntries_while_extends directoryReader :
  forall readEntries entries children,
    readAllDirectoryEntries_while readEntries directoryReader entries
    = Resolved children ->
    exists rest,
      children
      = entries
        ++ match readEntries with
           | Some batch => batch
           | None => []
           end
        ++ rest.
Proof.
  induction directoryReader as [|call r IH];
    intros [[|e batch]|] entries children H; simpl in H; try discriminate.
  - injection H as <-. exists []. simpl. symmetry; apply app_nil_r.
  - injection H as <-. exists []. rewrite app_nil_r. reflexivity.
  - injection H as <-. exists []. simpl. symmetry; apply app_nil_r.
  - apply IH in H. destruct H as [rest ->].
    eexists. rewrite <- app_assoc. reflexivity.
Qed.

Lemma readAllDirectoryEntries_while_batches tail :
  readAllDirectoryEntries tail = Resolved [] ->
  forall batches batch entries,
    batch <> [] ->
    Forall (fun b => b <> []) batches ->
    readAllDirectoryEntries_while (Some batch) (map resolve batches ++ tail)
      entries
    = Resolved (entries ++ batch ++ concat batches).
Proof.
  intros Htail batches.
  induction batches as [|b batches IH]; intros batch entries Hne Hall;
    rewrite readAllDirectoryEntries_while_batch by assumption.
  - simpl. rewrite app_nil_r.
    unfold readAllDirectoryEntries in Htail.
    destruct (readEntriesPromise tail) as [[[|e l]|] r]; simpl.
    + apply readAllDirectoryEntries_while_done.
    + exfalso.
      destruct (readAllDirectoryEntries_while_extends _ _ _ _ Htail) as [rest H].
      destruct r; discriminate.
    + destruct r; discriminate.
  - inversion Hall as [|? ? Hb Hbs]; subst. simpl.
    rewrite IH by assumption. rewrite <- !app_assoc. reflexivity.
Qed.

(** C4. A reader that hands its children over in non-empty batches and then
    answers with an empty batch (explicitly, or because it is used up) is
    drained completely: [readAllDirectoryEntries] resolves with the batches
    concatenated in order, each child once. *)
Theorem C4_pagination_drained batches after :
  Forall (fun batch => batch <> []) batches ->
  readAllDirectoryEntries (map resolve batches ++ resolve [] :: after)
  = Resolved (concat batches)
  /\ readAllDirectoryEntries (map resolve batches) = Resolved (concat batches).
Proof.
  intros Hall.
  assert (H : forall tail, readAllDirectoryEntries tail = Resolved [] ->
                           readAllDirectoryEntries (map resolve batches ++ tail)
                           = Resolved (concat batches)).
  { intros tail Htail. destruct Hall as [|batch batches Hne Hall].
    - exact Htail.
    - unfold readAllDirectoryEntries. simpl.
      apply (readAllDirectoryEntries_while_batches tail Htail batches batch []);
        assumption. }
  split.
  - apply H. unfold readAllDirectoryEntries. simpl.
    apply readAllDirectoryEntries_while_done.
  - rewrite <- (app_nil_r (map resolve batches)). apply H. reflexivity.
Qed.

Lemma C4_pagination_drained_witness :
  let child n :=
    FileSystemFileEntry n ("/d/" ++ n)
      (successCallback
         {| file_name := n; file_size := 1; file_type := "text/plain" |}
         (onload (Some "data:text/plain;base64,Cg=="))) in
  readAllDirectoryEntries
    [resolve [child "a"; child "b"]; resolve [child "c"]; resolve [];
     resolve [child "never read"]]
  = Resolved [child "a"; child "b"; child "c"]
  /\ readAllDirectoryEntries [resolve [child "a"; child "b"]; resolve [child "c"]]
     = Resolved [child "a"; child "b"; child "c"].
Proof.
  intros child.
  apply (C4_pagination_drained
           [[child "a"; child "b"]; [child "c"]] [resolve [child "never read"]]).
  repeat constructor; discriminate.
Defined.

(** ** Paths *)

Lemma skip_length s : JS.skip (String.length s) s = "".
Proof. induction s as [|c s IH]; simpl; [reflexivity | exact IH]. Qed.

Lemma prefix_refl s : String.prefix s s = true.
Proof.
  induction s as [|c s IH]; simpl; [reflexivity|].
  destruct (ascii_dec c c); [exact IH | congruence].
Qed.

(** [replace] strips the trailing name when the name does not show up
    earlier in the full path. *)
Lemma replace_trailing_name dir entryName :
  (forall k, (k < String.length dir)%nat ->
             String.prefix entryName (JS.skip k (dir ++ entryName)) = false) ->
  JS.replace (dir ++ entryName) entryName "" = dir.
Proof.
  induction dir as [|c dir IH]; intros H.
  - simpl append. destruct entryName as [|c' n']; [reflexivity|].
    unfold JS.replace; fold JS.replace.
    rewrite prefix_refl, skip_length. reflexivity.
  - assert (H0 := H O ltac:(simpl; lia)). simpl JS.skip in H0.
    change (String c dir ++ entryName)%string
      with (String c (dir ++ entryName)) in *.
    unfold JS.replace; fold JS.replace. rewrite H0. f_equal.
    apply IH. intros k Hk. apply (H (S k)). simpl. lia.
Qed.

(** C5 (a defect of the code). [path] is computed with
    [fullPath.replace(name, "")], which removes the first occurrence of the
    name.  That is the directory path when the name does not occur earlier
    in the full path; but dropping a folder [data] that holds a file [a]
    gives the file the path ["/dta/a"], not ["/data/"]. *)
Theorem C5_path_first_occurrence :
  (forall dir entryName f result,
      (forall k, (k < String.length dir)%nat ->
                 String.prefix entryName (JS.skip k (dir ++ entryName)) = false) ->
      path (dropped_file entryName (dir ++ entryName) f result) = dir
      /\ path (dropped_folder entryName (dir ++ entryName)) = dir)
  /\ (let a := {| file_name := "a"; file_size := 1; file_type := "text/plain" |} in
      getAllFileEntries (-1) other
        [Some (FileSystemDirectoryEntry "data" "/data"
                 [resolve [FileSystemFileEntry "a" "/data/a"
                             (successCallback a (onload (Some "data:,")))]])]
      = Resolved
          [{| path := "/"; type := folder; name := "data";
              mimeType := "folder/folder"; data := "" |};
           {| path := "/dta/a"; type := file; name := "a";
              mimeType := "text/plain"; data := "data:," |}])
  /\ path (dropped_folder "a" "/a/a") = "//a".
Proof.
  split; [|split].
  - intros dir entryName f result H. simpl.
    split; apply replace_trailing_name, H.
  - reflexivity.
  - reflexivity.
Qed.

(** ** Read failures *)

(** C6. When the loop dequeues a file whose reader fires [onerror], the
    rejection is not caught: the loop is left with nothing pushed and the rest
    of the queue untouched, [getAllFileEntries] rejects, and [onDrop] has
    called [onUploadStart] but never calls [onUploadEnd]. *)
Theorem C6_read_failure_aborts maxSize ft dataTransfer
  entryName fullPath f queue' entries :
  (0 < files_length dataTransfer)%nat ->
  reaches maxSize ft
    {| queue := items dataTransfer; fileEntries := [] |}
    {| queue := Some (FileSystemFileEntry entryName fullPath
                        (successCallback f onerror)) :: queue';
       fileEntries := entries |} ->
  getAllFileEntries_halt maxSize ft (items dataTransfer)
  = Some (Throw FileReaderError {| queue := queue'; fileEntries := entries |})
  /\ getAllFileEntries maxSize ft (items dataTransfer) = Rejected FileReaderError
  /\ onDrop maxSize ft dataTransfer = ([onUploadStart], Rejected FileReaderError).
Proof.
  intros Hfiles Hreach.
  assert (H : getAllFileEntries_halt maxSize ft (items dataTransfer)
              = Some (Throw FileReaderError
                        {| queue := queue'; fileEntries := entries |})).
  { unfold getAllFileEntries_halt.
    rewrite (reaches_run _ _ _ _ Hreach). apply run_halt. reflexivity. }
  assert (H' : getAllFileEntries maxSize ft (items dataTransfer)
               = Rejected FileReaderError).
  { unfold getAllFileEntries. rewrite H. reflexivity. }
  repeat split; try assumption.
  unfold onDrop. rewrite H'.
  apply Nat.ltb_lt in Hfiles. rewrite Hfiles. reflexivity.
Qed.

Lemma C6_read_failure_aborts_witness :
  let ok n :=
    FileSystemFileEntry n ("/" ++ n)
      (successCallback
         {| file_name := n; file_size := 1; file_type := "text/plain" |}
         (onload (Some "data:text/plain;base64,Cg=="))) in
  let unreadable :=
    FileSystemFileEntry "u" "/u"
      (successCallback
         {| file_name := "u"; file_size := 1; file_type := "text/plain" |}
         onerror) in
  let dataTransfer :=
    {| files_length := 3;
       items := [Some (ok "x"); Some unreadable; Some (ok "z")] |} in
  getAllFileEntries_halt (-1) other (items dataTransfer)
  = Some (Throw FileReaderError
            {| queue := [Some (ok "z")];
               fileEntries :=
                 [{| path := "/"; type := file; name := "x";
                     mimeType := "text/plain";
                     data := "data:text/plain;base64,Cg==" |}] |})
  /\ getAllFileEntries (-1) other (items dataTransfer) = Rejected FileReaderError
  /\ onDrop (-1) other dataTransfer = ([onUploadStart], Rejected FileReaderError).
Proof.
  intros ok unreadable dataTransfer.
  apply (C6_read_failure_aborts (-1) other dataTransfer "u" "/u"
           {| file_name := "u"; file_size := 1; file_type := "text/plain" |}
           [Some (ok "z")]).
  - simpl. lia.
  - eapply reaches_turn; [reflexivity | apply reaches_here].
Defined.

(** ** The file dialog *)

Lemma onChange_for_root_files maxSize ft files :
  forall items out,
    Forall (fun e => type e = file /\ path e = "/") items ->
    onChange_for maxSize ft files items = Return out ->
    Forall (fun e => type e = file /\ path e = "/") out.
Proof.
  induction files as [|[[f [result|]]|] files IH]; intros items out Hitems H;
    simpl in H; try discriminate.
  - injection H as <-. exact Hitems.
  - apply IH in H; [exact H|].
    destruct (checks maxSize ft f); [|exact Hitems].
    apply Forall_app. split; [exact Hitems|].
    constructor; [split; reflexivity | constructor].
Qed.

Lemma onChange_delivers maxSize ft target_files out :
  In (onUploadEnd out) (fst (onChange maxSize ft target_files)) ->
  exists files, target_files = Some files
                /\ onChange_for maxSize ft files [] = Return out.
Proof.
  unfold onChange. destruct target_files as [[|item files']|];
    [simpl; tauto | | simpl; tauto].
  destruct (onChange_for maxSize ft (item :: files') []) as [out'|reason st|st] eqn:E;
    cbn [settle fst In]; intros H.
  - destruct H as [H|[H|[]]]; [discriminate|].
    injection H as ->. exists (item :: files'). split; [reflexivity | exact E].
  - destruct H as [H|[]]. discriminate.
  - destruct H as [H|[]]. discriminate.
Qed.

(** C7. Whatever [onChange] hands to [onUploadEnd] consists of File entries
    with path ["/"] only.  With category ["pdf"], two PDF files under the
    size limit and one text file, in any order, the list handed over is the
    two PDF entries, in selection order. *)
Theorem C7_dialog_entries maxSize p1 p2 t r1 r2 r3 :
  file_type p1 = "application/pdf" ->
  file_type p2 = "application/pdf" ->
  file_type t = "text/plain" ->
  maxSize = -1 \/ file_size p1 < maxSize ->
  maxSize = -1 \/ file_size p2 < maxSize ->
  (forall ft target_files out,
      In (onUploadEnd out) (fst (onChange maxSize ft target_files)) ->
      Forall (fun e => type e = file /\ path e = "/") out)
  /\ (let delivered :=
        ([onUploadStart;
          onUploadEnd
            [{| path := "/"; type := file; name := file_name p1;
                mimeType := "application/pdf"; data := result_toString r1 |};
             {| path := "/"; type := file; name := file_name p2;
                mimeType := "application/pdf"; data := result_toString r2 |}]],
         Resolved tt) in
      onChange maxSize pdf
        (Some [Some (p1, onload r1); Some (p2, onload r2); Some (t, onload r3)])
      = delivered
      /\ onChange maxSize pdf
           (Some [Some (p1, onload r1); Some (t, onload r3); Some (p2, onload r2)])
         = delivered
      /\ onChange maxSize pdf
           (Some [Some (t, onload r3); Some (p1, onload r1); Some (p2, onload r2)])
         = delivered).
Proof.
  intros Hp1 Hp2 Ht Hs1 Hs2. split.
  - intros ft target_files out H.
    apply onChange_delivers in H. destruct H as (files & _ & H).
    apply (onChange_for_root_files _ _ _ _ _ (Forall_nil _) H).
  - assert (C1 : checks maxSize pdf p1 = true).
    { apply checks_accepted. split; [exact Hs1|]. right; left. auto. }
    assert (C2 : checks maxSize pdf p2 = true).
    { apply checks_accepted. split; [exact Hs2|]. right; left. auto. }
    assert (C3 : checks maxSize pdf t = false).
    { apply checks_rejected. intros [_ [H|[[H _]|H]]].
      - rewrite Ht in H. discriminate.
      - rewrite Ht in H. discriminate.
      - discriminate. }
    unfold onChange; simpl.
    rewrite ?C1, ?C2, ?C3; simpl; rewrite ?C1, ?C2, ?C3; simpl;
      rewrite ?C1, ?C2, ?C3; simpl.
    unfold selected_file. rewrite Hp1, Hp2. simpl. repeat split; reflexivity.
Qed.

Lemma C7_dialog_entries_witness :
  onChange 10000000 pdf
    (Some [Some ({| file_name := "a.pdf"; file_size := 1200;
                    file_type := "application/pdf" |},
                 onload (Some "data:application/pdf;base64,JVBERi0="));
           Some ({| file_name := "b.pdf"; file_size := 3400;
                    file_type := "application/pdf" |},
                 onload (Some "data:application/pdf;base64,JVBERi0x"));
           Some ({| file_name := "notes.txt"; file_size := 12;
                    file_type := "text/plain" |},
                 onload (Some "data:text/plain;base64,aGk="))])
  = ([onUploadStart;
      onUploadEnd
        [{| path := "/"; type := file; name := "a.pdf";
            mimeType := "application/pdf";
            data := "data:application/pdf;base64,JVBERi0=" |};
         {| path := "/"; type := file; name := "b.pdf";
            mimeType := "application/pdf";
            data := "data:application/pdf;base64,JVBERi0x" |}]],
     Resolved tt).
Proof.
  apply (C7_dialog_entries 10000000
           {| file_name := "a.pdf"; file_size := 1200;
              file_type := "application/pdf" |}
           {| file_name := "b.pdf"; file_size := 3400;
              file_type := "application/pdf" |}
           {| file_name := "notes.txt"; file_size := 12;
              file_type := "text/plain" |}
           (Some "data:application/pdf;base64,JVBERi0=")
           (Some "data:application/pdf;base64,JVBERi0x")
           (Some "data:text/plain;base64,aGk=")); simpl;
    first [reflexivity | right; lia].
Defined.

Lemma onChange_for_loaded maxSize ft before :
  forallb loads before = true ->
  forall rest items,
  exists items',
    onChange_for maxSize ft (before ++ rest) items
    = onChange_for maxSize ft rest items'.
Proof.
  induction before as [|[[f [result|]]|] before IH]; intros Hb rest items;
    simpl in Hb; try discriminate.
  - exists items. reflexivity.
  - simpl. apply IH, Hb.
Qed.

Lemma onChange_for_null maxSize ft files :
  In None files ->
  forall items out, onChange_for maxSize ft files items <> Return out.
Proof.
  induction files as [|[[f [result|]]|] files IH]; intros Hin items out;
    simpl; try discriminate.
  - destruct Hin.
  - destruct Hin as [H|Hin]; [discriminate|]. apply IH, Hin.
Qed.

(** C10. When [item(i)] is [null] the promise awaited for that index is
    never settled: the loop stays there with the items after it unvisited,
    the handler's promise stays pending (the files before it having loaded),
    and [onUploadEnd] is not called, only [onUploadStart]. *)
Theorem C10_null_item_never_settles maxSize ft before after :
  forallb loads before = true ->
  (forall items,
      onChange_for maxSize ft (None :: after) items = Stuck (after, items))
  /\ (exists items,
         onChange_for maxSize ft (before ++ None :: after) []
         = Stuck (after, items))
  /\ onChange maxSize ft (Some (before ++ None :: after))
     = ([onUploadStart], Pending)
  /\ (forall files out,
         In None files ->
         ~ In (onUploadEnd out) (fst (onChange maxSize ft (Some files)))).
Proof.
  intros Hb.
  destruct (onChange_for_loaded maxSize ft before Hb (None :: after) [])
    as [items Hitems].
  split; [reflexivity|]. split; [|split].
  - exists items. rewrite Hitems. reflexivity.
  - unfold onChange.
    destruct (before ++ None :: after) as [|item files'] eqn:E.
    + destruct before; discriminate.
    + rewrite Hitems. reflexivity.
  - intros files out Hin H. apply onChange_delivers in H.
    destruct H as (files0 & Heq & H). injection Heq as <-.
    exact (onChange_for_null _ _ _ Hin _ _ H).
Qed.

Lemma C10_null_item_never_settles_witness :
  onChange 10000000 other
    (Some [Some ({| file_name := "a.txt"; file_size := 2;
                    file_type := "text/plain" |},
                 onload (Some "data:text/plain;base64,aGk="));
           None;
           Some ({| file_name := "b.txt"; file_size := 2;
                    file_type := "text/plain" |},
                 onload (Some "data:text/plain;base64,aG8="))])
  = ([onUploadStart], Pending).
Proof.
  exact (proj1 (proj2 (proj2
           (C10_null_item_never_settles 10000000 other
              [Some ({| file_name := "a.txt"; file_size := 2;
                        file_type := "text/plain" |},
                     onload (Some "data:text/plain;base64,aGk="))]
              [Some ({| file_name := "b.txt"; file_size := 2;
                        file_type := "text/plain" |},
                     onload (Some "data:text/plain;base64,aG8="))]
              eq_refl)))).
Defined.

(** ** Size formatting *)

Ltac decide_tests :=
  repeat match goal with
    | |- context [?a <=? ?b] =>
        first [ rewrite (proj2 (Z.leb_le a b)) by lia
              | rewrite (proj2 (Z.leb_gt a b)) by lia ]
    | |- context [?a <? ?b] =>
        first [ rewrite (proj2 (Z.ltb_lt a b)) by lia
              | rewrite (proj2 (Z.ltb_ge a b)) by lia ]
    | |- context [?a =? ?b] =>
        first [ rewrite (proj2 (Z.eqb_eq a b)) by lia
              | rewrite (proj2 (Z.eqb_neq a b)) by lia ]
    end.

(** The branch taken by [formatFileSize], by the size of [bytes]. *)
Lemma formatFileSize_branches bytes :
  (1000000000000 <= bytes ->
   formatFileSize bytes
   = (JS.toFixed1 (JS.number bytes / JS.number 100000000000)%float ++ " TB")%string)
  /\ (1000000000 <= bytes < 1000000000000 ->
      formatFileSize bytes
      = (JS.toFixed1 (JS.number bytes / JS.number 100000000)%float ++ " GB")%string)
  /\ (1000000 <= bytes < 1000000000 ->
      formatFileSize bytes
      = (JS.toFixed1 (JS.number bytes / JS.number 1000000)%float ++ " MB")%string)
  /\ (1000 <= bytes < 1000000 ->
      formatFileSize bytes
      = (JS.toFixed1 (JS.number bytes / JS.number 1000)%float ++ " KB")%string)
  /\ (1 < bytes < 1000 -> formatFileSize bytes = (JS.digits bytes ++ " bytes")%string)
  /\ (bytes = 1 -> formatFileSize bytes = "1 byte")
  /\ (bytes <= 0 -> formatFileSize bytes = "0 GB").
Proof.
  repeat split; intros H; unfold formatFileSize; decide_tests;
    solve [reflexivity | subst bytes; vm_compute; reflexivity].
Qed.

(** C8 (a defect of the code). The units are chosen at the decimal
    thresholds and the documented examples come out as stated, but the
    gigabyte branch divides by [10^8], not [10^9]: one gigabyte is rendered
    ["10.0 GB"] and 2.5 gigabytes ["25.0 GB"], ten times the value in
    gigabytes (just as the terabyte branch divides by [10^11]). *)
Theorem C8_formatFileSize_gigabytes :
  formatFileSize 1000000000 = "10.0 GB"
  /\ formatFileSize 2500000000 = "25.0 GB"
  /\ formatFileSize 1000000000000 = "10.0 TB"
  /\ formatFileSize 2500000 = "2.5 MB"
  /\ formatFileSize 1500 = "1.5 KB"
  /\ formatFileSize 500 = "500 bytes"
  /\ formatFileSize 1 = "1 byte"
  /\ (forall bytes, bytes <= 0 -> formatFileSize bytes = "0 GB").
Proof.
  do 7 (split; [vm_compute; reflexivity|]).
  intros bytes. apply formatFileSize_branches.
Qed.

(** ** The scenario of the specification *)

(** C9, as the code has it. For the drop [X, Y{Z}] with X an [image/png] of
    500 bytes, Z an [image/png] of 2,000,000 bytes, [maxSize] 1,000,000 and
    category ["image"], the list returned is the File entry of X followed by
    the Folder entry of Y: X is dequeued and read before Y, and Z is left
    out by the size test. *)
Theorem C9_scenario_output dataX dataZ :
  let X := FileSystemFileEntry "X" "/X"
             (successCallback
                {| file_name := "X"; file_size := 500; file_type := "image/png" |}
                (onload (Some dataX))) in
  let Z := FileSystemFileEntry "Z" "/Y/Z"
             (successCallback
                {| file_name := "Z"; file_size := 2000000;
                   file_type := "image/png" |}
                (onload (Some dataZ))) in
  let Y := FileSystemDirectoryEntry "Y" "/Y" [resolve [Z]] in
  getAllFileEntries 1000000 image [Some X; Some Y]
  = Resolved
      [{| path := "/"; type := file; name := "X"; mimeType := "image/png";
          data := dataX |};
       {| path := "/"; type := folder; name := "Y"; mimeType := "folder/folder";
          data := "" |}].
Proof. destruct dataX; reflexivity. Qed.

(** The order given in the specification, Folder Y before File X, is not what the
    traversal returns. *)
Lemma C9_folder_first_counterexample :
  let X := FileSystemFileEntry "X" "/X"
             (successCallback
                {| file_name := "X"; file_size := 500; file_type := "image/png" |}
                (onload (Some "data:image/png;base64,iVBORw0KGgo="))) in
  let Z := FileSystemFileEntry "Z" "/Y/Z"
             (successCallback
                {| file_name := "Z"; file_size := 2000000;
                   file_type := "image/png" |}
                (onload (Some "data:image/png;base64,iVBORw0KGgo="))) in
  let Y := FileSystemDirectoryEntry "Y" "/Y" [resolve [Z]] in
  getAllFileEntries 1000000 image [Some X; Some Y]
  <> Resolved
       [{| path := "/"; type := folder; name := "Y"; mimeType := "folder/folder";
           data := "" |};
        {| path := "/"; type := file; name := "X"; mimeType := "image/png";
           data := "data:image/png;base64,iVBORw0KGgo=" |}].
Proof. intros X Z Y. vm_compute. discriminate. Qed.

(** ** Further properties of the traversal and the handlers *)

(** The loop of [getAllFileEntries] always halts: every turn removes an
    entry from the queue and adds at most the children not yet read, so the
    fuel given by the size of the drop is never used up, and the promise is
    the outcome of the halting state. *)
Theorem getAllFileEntries_always_halts maxSize ft dataTransferItemList :
  exists h,
    getAllFileEntries_halt maxSize ft dataTransferItemList = Some h
    /\ getAllFileEntries maxSize ft dataTransferItemList = settle h.
Proof.
  unfold getAllFileEntries, getAllFileEntries_halt.
  destruct (run_halts maxSize ft
              {| queue := dataTransferItemList; fileEntries := [] |}) as [h Hh].
  exists h. rewrite Hh. split; reflexivity.
Qed.

Lemma step_pushes maxSize ft s s' :
  step maxSize ft s = inl s' ->
  exists entry queue',
    queue s = entry :: queue'
    /\ fileEntries s' = fileEntries s ++ pushed maxSize ft entry.
Proof.
  unfold step. destruct s as [q entries]; simpl.
  destruct q as [|[[entryName fullPath call|entryName fullPath reader]|] q'];
    try discriminate.
  - destruct call as [f [result|]|]; try discriminate.
    intros H; injection H as <-. do 2 eexists. split; [reflexivity|]. simpl.
    destruct (checks maxSize ft f); [reflexivity|].
    symmetry; apply app_nil_r.
  - destruct (readAllDirectoryEntries reader); try discriminate.
    intros H; injection H as <-. do 2 eexists. split; reflexivity.
  - intros H; injection H as <-. do 2 eexists. split; [reflexivity|].
    symmetry; apply app_nil_r.
Qed.

Lemma step_returns maxSize ft s out :
  step maxSize ft s = inr (Return out) -> queue s = [] /\ out = fileEntries s.
Proof.
  unfold step.
  destruct (queue s) as [|[[? ? [? [?|]|]|? ? reader]|] ?]; try discriminate.
  - intros H; injection H as <-. split; reflexivity.
  - destruct (readAllDirectoryEntries reader); discriminate.
Qed.

Lemma while_output maxSize ft fuel :
  forall s out,
    while maxSize ft fuel s = Some (Return out) ->
    out = fileEntries s ++ flat_map (pushed maxSize ft) (dequeued maxSize ft fuel s).
Proof.
  induction fuel as [|fuel IH]; intros s out H; [discriminate|].
  simpl in *. destruct (step maxSize ft s) as [s'|h] eqn:E.
  - destruct (step_pushes _ _ _ _ E) as (entry & queue' & Hq & Hp).
    rewrite Hq. simpl. rewrite (IH _ _ H), Hp, app_assoc. reflexivity.
  - injection H as ->. apply step_returns in E. destruct E as [-> ->].
    symmetry; apply app_nil_r.
Qed.

(** The list [getAllFileEntries] resolves with is, entry by entry in the
    order they were dequeued, what each one contributes: one Folder entry
    for a directory, one File entry for a file that loaded and passes the
    checks, nothing for any other. *)
Theorem getAllFileEntries_in_dequeue_order maxSize ft dataTransferItemList out :
  getAllFileEntries maxSize ft dataTransferItemList = Resolved out ->
  out = flat_map (pushed maxSize ft) (visited maxSize ft dataTransferItemList).
Proof.
  unfold getAllFileEntries, getAllFileEntries_halt, run, visited.
  destruct (while maxSize ft _ _) as [[out'|reason st|st]|] eqn:E;
    try discriminate.
  intros H; injection H as <-.
  apply while_output in E. exact E.
Qed.

Lemma getAllFileEntries_in_dequeue_order_witness :
  let leaf n size :=
    FileSystemFileEntry n ("/d/" ++ n)
      (successCallback
         {| file_name := n; file_size := size; file_type := "image/png" |}
         (onload (Some "data:image/png;base64,AA=="))) in
  let drop :=
    [Some (FileSystemDirectoryEntry "d" "/d"
             [resolve [leaf "small" 10]; resolve [leaf "large" 5000]]);
     None] in
  visited 1000 image drop
  = [Some (FileSystemDirectoryEntry "d" "/d"
             [resolve [leaf "small" 10]; resolve [leaf "large" 5000]]);
     None; Some (leaf "small" 10); Some (leaf "large" 5000)]
  /\ flat_map (pushed 1000 image) (visited 1000 image drop)
     = [{| path := "/"; type := folder; name := "d";
           mimeType := "folder/folder"; data := "" |};
        {| path := "/d/"; type := file; name := "small";
           mimeType := "image/png"; data := "data:image/png;base64,AA==" |}].
Proof.
  intros leaf drop. split; [reflexivity|].
  symmetry. apply (getAllFileEntries_in_dequeue_order 1000 image drop).
  reflexivity.
Defined.

(** A file entry whose [file()] call fails is never heard of again: the
    code passes no error callback, so the awaited promise stays pending, the
    traversal stops there and [onUploadEnd] is not called. *)
Theorem file_without_callback_hangs maxSize ft dataTransfer
  entryName fullPath queue' entries :
  (0 < files_length dataTransfer)%nat ->
  reaches maxSize ft
    {| queue := items dataTransfer; fileEntries := [] |}
    {| queue := Some (FileSystemFileEntry entryName fullPath noCallback)
                :: queue';
       fileEntries := entries |} ->
  getAllFileEntries_halt maxSize ft (items dataTransfer)
  = Some (Stuck {| queue := queue'; fileEntries := entries |})
  /\ onDrop maxSize ft dataTransfer = ([onUploadStart], Pending).
Proof.
  intros Hfiles Hreach.
  assert (H : getAllFileEntries_halt maxSize ft (items dataTransfer)
              = Some (Stuck {| queue := queue'; fileEntries := entries |})).
  { unfold getAllFileEntries_halt.
    rewrite (reaches_run _ _ _ _ Hreach). apply run_halt. reflexivity. }
  split; [exact H|].
  unfold onDrop, getAllFileEntries. rewrite H.
  apply Nat.ltb_lt in Hfiles. rewrite Hfiles. reflexivity.
Qed.

Lemma file_without_callback_hangs_witness :
  onDrop (-1) other
    {| files_length := 2;
       items := [Some (FileSystemFileEntry "gone" "/gone" noCallback);
                 Some (FileSystemDirectoryEntry "d" "/d" [])] |}
  = ([onUploadStart], Pending).
Proof.
  apply (file_without_callback_hangs (-1) other
           {| files_length := 2;
              items := [Some (FileSystemFileEntry "gone" "/gone" noCallback);
                        Some (FileSystemDirectoryEntry "d" "/d" [])] |}
           "gone" "/gone" [Some (FileSystemDirectoryEntry "d" "/d" [])] []).
  - simpl. lia.
  - apply reaches_here.
Defined.

Lemma readAllDirectoryEntries_while_undefined directoryReader entries :
  readAllDirectoryEntries_while None directoryReader entries
  = Rejected TypeError.
Proof. destruct directoryReader; reflexivity. Qed.

(** A failing [readEntries] is caught and logged by [readEntriesPromise],
    which then yields [undefined]; reading its [length] throws, so
    [readAllDirectoryEntries] rejects, whatever was read before, and the
    traversal rejects with the Folder entry of that directory already
    pushed. *)
Theorem readEntries_failure_rejects batches after :
  Forall (fun batch => batch <> []) batches ->
  readAllDirectoryEntries (map resolve batches ++ reject :: after)
  = Rejected TypeError
  /\ (forall maxSize ft entryName fullPath queue' entries,
         step maxSize ft
           {| queue := Some (FileSystemDirectoryEntry entryName fullPath
                               (map resolve batches ++ reject :: after))
                       :: queue';
              fileEntries := entries |}
         = inr (Throw TypeError
                  {| queue := queue';
                     fileEntries :=
                       entries ++ [dropped_folder entryName fullPath] |})).
Proof.
  intros Hall.
  assert (H : readAllDirectoryEntries (map resolve batches ++ reject :: after)
              = Rejected TypeError).
  { unfold readAllDirectoryEntries.
    destruct Hall as [|batch batches Hne Hall]; simpl.
    - apply readAllDirectoryEntries_while_undefined.
    - generalize (@nil FileSystemEntry) as entries. revert batch Hne.
      induction Hall as [|b batches Hb Hall IH]; intros batch Hne entries;
        rewrite readAllDirectoryEntries_while_batch by assumption; simpl.
      + apply readAllDirectoryEntries_while_undefined.
      + apply IH, Hb. }
  split; [exact H|].
  intros. unfold step; simpl. rewrite H. reflexivity.
Qed.

Lemma readEntries_failure_rejects_witness :
  let child :=
    FileSystemFileEntry "a" "/d/a"
      (successCallback
         {| file_name := "a"; file_size := 1; file_type := "text/plain" |}
         (onload (Some "data:text/plain;base64,Cg=="))) in
  readAllDirectoryEntries [resolve [child]; reject] = Rejected TypeError.
Proof.
  intros child.
  refine (proj1 (readEntries_failure_rejects [[child]] [] _)).
  repeat constructor; discriminate.
Defined.

(** With nothing dropped or nothing selected the handlers do nothing: neither
    [onUploadStart] nor [onUploadEnd] is called. *)
Theorem nothing_to_process_is_a_no_op maxSize ft dataTransferItemList :
  onDrop maxSize ft {| files_length := 0; items := dataTransferItemList |}
  = ([], Resolved tt)
  /\ onChange maxSize ft None = ([], Resolved tt)
  /\ onChange maxSize ft (Some []) = ([], Resolved tt).
Proof. repeat split. Qed.

Lemma onChange_for_all_loaded maxSize ft (files : list (File * option string)) :
  forall items,
    onChange_for maxSize ft
      (map (fun fr => Some (fst fr, onload (snd fr))) files) items
    = Return (items
              ++ map (fun fr => selected_file (fst fr) (snd fr))
                   (filter (fun fr => checks maxSize ft (fst fr)) files)).
Proof.
  induction files as [|[f result] files IH]; intros items; simpl.
  - rewrite app_nil_r. reflexivity.
  - rewrite IH. destruct (checks maxSize ft f); simpl; [|reflexivity].
    rewrite <- app_assoc. reflexivity.
Qed.

(** When every selected file loads, [onChange] calls [onUploadStart] and then
    [onUploadEnd] with the entries of the files that pass the checks, in
    selection order. *)
Theorem onChange_delivers_the_accepted_files maxSize ft f result
  (files : list (File * option string)) :
  onChange maxSize ft
    (Some (map (fun fr => Some (fst fr, onload (snd fr)))
             ((f, result) :: files)))
  = ([onUploadStart;
      onUploadEnd
        (map (fun fr => selected_file (fst fr) (snd fr))
           (filter (fun fr => checks maxSize ft (fst fr))
              ((f, result) :: files)))],
     Resolved tt).
Proof.
  unfold onChange. cbn [map].
  change (Some (fst (f, result), onload (snd (f, result)))
          :: map (fun fr => Some (fst fr, onload (snd fr))) files)
    with (map (fun fr : File * option string =>
                 Some (fst fr, onload (snd fr))) ((f, result) :: files)).
  rewrite onChange_for_all_loaded. reflexivity.
Qed.

(** ** Dropping plain files and selecting them *)

Lemma prefix_shifted n :
  forall c, String.prefix n (String c n) = true ->
            JS.skip (String.length n) (String c n) = String c "".
Proof.
  induction n as [|a n IH]; intros c H; [reflexivity|].
  simpl in H. destruct (ascii_dec a c) as [->|]; [|discriminate].
  simpl. apply IH, H.
Qed.

Lemma replace_self n : JS.replace n n "" = "".
Proof.
  destruct n as [|c n]; [reflexivity|].
  unfold JS.replace; fold JS.replace.
  rewrite prefix_refl, skip_length. reflexivity.
Qed.

(** At the root the path is always ["/"], whatever the name. *)
Lemma replace_root n : JS.replace (String "/" n) n "" = "/".
Proof.
  unfold JS.replace; fold JS.replace.
  destruct (String.prefix n (String "/" n)) eqn:E.
  - rewrite (prefix_shifted _ _ E). reflexivity.
  - rewrite replace_self. reflexivity.
Qed.

Lemma dropped_alone_entry f result :
  dropped_file (file_name f) ("/" ++ file_name f) f result
  = selected_file f result.
Proof.
  unfold dropped_file, selected_file. f_equal. apply replace_root.
Qed.

Lemma run_dropped_alone maxSize ft files :
  forall entries,
    option_map settle
      (run maxSize ft
         {| queue := map dropped_alone files; fileEntries := entries |})
    = Some (settle (onChange_for maxSize ft (map Some files) entries)).
Proof.
  induction files as [|[f [result|]] files IH]; intros entries;
    rewrite run_unfold; unfold step;
    cbn [queue fileEntries map dropped_alone fst snd onChange_for].
  - reflexivity.
  - rewrite dropped_alone_entry. apply IH.
  - reflexivity.
Qed.

(** Dropping files that are not inside a folder gives what selecting the
    same files in the dialog gives: the same calls of [onUploadStart] and
    [onUploadEnd] with the same list (every path is ["/"]), and the same
    rejection when a read fails. *)
Theorem dropping_plain_files_is_selecting_them maxSize ft
  (files : list (File * FileReaderEvent)) :
  getAllFileEntries maxSize ft (map dropped_alone files)
  = settle (onChange_for maxSize ft (map Some files) [])
  /\ onDrop maxSize ft
       {| files_length := length files; items := map dropped_alone files |}
     = onChange maxSize ft (Some (map Some files)).
Proof.
  assert (H : getAllFileEntries maxSize ft (map dropped_alone files)
              = settle (onChange_for maxSize ft (map Some files) [])).
  { unfold getAllFileEntries, getAllFileEntries_halt.
    pose proof (run_dropped_alone maxSize ft files []) as H.
    destruct (run maxSize ft _) as [h|]; simpl in H; [|discriminate].
    injection H as ->. reflexivity. }
  split; [exact H|].
  unfold onDrop, onChange. cbn [files_length items]. rewrite H.
  destruct files as [|fe files]; reflexivity.
Qed.

(** ** Items that are not entries *)

Lemma filter_is_entry_children (es : list FileSystemEntry) :
  filter is_entry (map Some es) = map Some es.
Proof. induction es as [|e es IH]; simpl; [reflexivity | rewrite IH; reflexivity]. Qed.

Lemma run_skips_null maxSize ft n :
  forall s,
    (queue_size (queue s) <= n)%nat ->
    option_map settle (run maxSize ft s)
    = option_map settle
        (run maxSize ft
           {| queue := filter is_entry (queue s);
              fileEntries := fileEntries s |}).
Proof.
  induction n as [|n IH]; intros [q entries] Hn; cbn [queue fileEntries] in *.
  - destruct q as [|[e|] q]; simpl in Hn.
    + reflexivity.
    + pose proof (entry_size_pos e). lia.
    + lia.
  - destruct q as [|[[entryName fullPath call|entryName fullPath reader]|] q];
      [reflexivity | | |].
    + rewrite (run_unfold _ _ {| queue := _ :: q |}).
      cbn [filter is_entry]. rewrite (run_unfold _ _ {| queue := _ :: filter _ _ |}).
      unfold step; cbn [queue fileEntries].
      destruct call as [f [result|]|]; [|reflexivity|reflexivity].
      apply (IH {| queue := q |}). simpl in Hn. cbn [queue]. lia.
    + rewrite (run_unfold _ _ {| queue := _ :: q |}).
      cbn [filter is_entry]. rewrite (run_unfold _ _ {| queue := _ :: filter _ _ |}).
      unfold step; cbn [queue fileEntries].
      destruct (readAllDirectoryEntries reader) as [es| |] eqn:E;
        [|reflexivity|reflexivity].
      rewrite (IH {| queue := q ++ map Some es |}).
      * cbn [queue fileEntries].
        rewrite filter_app, filter_is_entry_children. reflexivity.
      * cbn [queue]. apply readAllDirectoryEntries_size in E.
        rewrite queue_size_app, queue_size_children.
        cbn [queue_size item_size] in Hn. rewrite entry_size_directory in Hn.
        lia.
    + rewrite (run_unfold _ _ {| queue := None :: q |}).
      unfold step; cbn [queue fileEntries filter is_entry].
      apply (IH {| queue := q |}). simpl in Hn. cbn [queue]. lia.
Qed.

(** Items for which [webkitGetAsEntry()] is [null] (dragged text, links)
    change nothing: the traversal and the handler give what they give on
    the drop without them. *)
Theorem null_items_change_nothing maxSize ft n dataTransferItemList :
  getAllFileEntries maxSize ft dataTransferItemList
  = getAllFileEntries maxSize ft (filter is_entry dataTransferItemList)
  /\ onDrop maxSize ft
       {| files_length := n; items := dataTransferItemList |}
     = onDrop maxSize ft
         {| files_length := n; items := filter is_entry dataTransferItemList |}.
Proof.
  assert (H : getAllFileEntries maxSize ft dataTransferItemList
              = getAllFileEntries maxSize ft
                  (filter is_entry dataTransferItemList)).
  { unfold getAllFileEntries, getAllFileEntries_halt.
    pose proof (run_skips_null maxSize ft _
                  {| queue := dataTransferItemList; fileEntries := [] |}
                  (Nat.le_refl _)) as H.
    cbn [queue fileEntries] in H.
    destruct (run_halts maxSize ft
                {| queue := dataTransferItemList; fileEntries := [] |})
      as [h Hh].
    destruct (run_halts maxSize ft
                {| queue := filter is_entry dataTransferItemList;
                   fileEntries := [] |}) as [h' Hh'].
    rewrite Hh, Hh' in *. simpl in H. injection H as H. exact H. }
  split; [exact H|].
  unfold onDrop. cbn [files_length items]. rewrite H. reflexivity.
Qed.

(** ** The configuration and the traversal *)

Lemma filter_is_folder_file entries f entryName fullPath result :
  filter is_folder (entries ++ [dropped_file entryName fullPath f result])
  = filter is_folder entries.
Proof. rewrite filter_app. simpl. apply app_nil_r. Qed.

Lemma step_similar maxSize ft maxSize' ft' s s' :
  queue s = queue s' ->
  filter is_folder (fileEntries s) = filter is_folder (fileEntries s') ->
  match step maxSize ft s, step maxSize' ft' s' with
  | inl t, inl t' =>
      queue t = queue t'
      /\ filter is_folder (fileEntries t) = filter is_folder (fileEntries t')
  | inr h, inr h' => same_but_files (settle h) (settle h')
  | _, _ => False
  end.
Proof.
  destruct s as [q entries], s' as [q' entries']; cbn [queue fileEntries].
  intros <- He. unfold step; cbn [queue fileEntries].
  destruct q as [|[[entryName fullPath call|entryName fullPath reader]|] q].
  - exact He.
  - destruct call as [f [result|]|]; cbn [settle same_but_files]; auto.
    cbn [queue fileEntries]. split; [reflexivity|].
    destruct (checks maxSize ft f), (checks maxSize' ft' f);
      rewrite ?filter_is_folder_file; exact He.
  - destruct (readAllDirectoryEntries reader);
      cbn [settle same_but_files queue fileEntries]; auto.
    split; [reflexivity|]. rewrite !filter_app, He. reflexivity.
  - cbn [queue fileEntries]. split; [reflexivity | exact He].
Qed.

Lemma while_similar maxSize ft maxSize' ft' fuel :
  forall s s',
    queue s = queue s' ->
    filter is_folder (fileEntries s) = filter is_folder (fileEntries s') ->
    dequeued maxSize ft fuel s = dequeued maxSize' ft' fuel s'
    /\ match while maxSize ft fuel s, while maxSize' ft' fuel s' with
       | Some h, Some h' => same_but_files (settle h) (settle h')
       | None, None => True
       | _, _ => False
       end.
Proof.
  induction fuel as [|fuel IH]; intros s s' Hq He; [split; exact I || reflexivity|].
  pose proof (step_similar maxSize ft maxSize' ft' s s' Hq He) as H.
  simpl. rewrite <- Hq.
  destruct (step maxSize ft s) as [t|h], (step maxSize' ft' s') as [t'|h'];
    try contradiction.
  - destruct H as [Hq' He']. destruct (IH t t' Hq' He') as [Hd Hw].
    split; [|exact Hw]. destruct (queue s); [reflexivity|]. rewrite Hd. reflexivity.
  - split; [|exact H]. destruct (queue s); reflexivity.
Qed.

(** [maxSize] and the category decide which File entries are pushed and
    nothing else: under any two configurations the loop dequeues the same
    entries in the same order, ends the same way (returns, rejects with the
    same error, or never settles), and returns the same Folder entries. *)
Theorem configuration_only_filters_files
  maxSize ft maxSize' ft' dataTransferItemList :
  visited maxSize ft dataTransferItemList
  = visited maxSize' ft' dataTransferItemList
  /\ same_but_files
       (getAllFileEntries maxSize ft dataTransferItemList)
       (getAllFileEntries maxSize' ft' dataTransferItemList).
Proof.
  unfold visited, getAllFileEntries, getAllFileEntries_halt, run.
  cbn [queue].
  destruct (while_similar maxSize ft maxSize' ft'
              (S (queue_size dataTransferItemList))
              {| queue := dataTransferItemList; fileEntries := [] |}
              {| queue := dataTransferItemList; fileEntries := [] |}
              eq_refl eq_refl) as [Hd Hw].
  split; [exact Hd|].
  destruct (while maxSize ft _ _), (while maxSize' ft' _ _);
    try contradiction; [exact Hw | exact I].
Qed.

(** ** Level by level *)

Lemma dequeued_more_fuel maxSize ft fuel :
  forall s fuel',
    (queue_size (queue s) < fuel)%nat -> (fuel <= fuel')%nat ->
    dequeued maxSize ft fuel' s = dequeued maxSize ft fuel s.
Proof.
  induction fuel as [|fuel IH]; intros s fuel' Hs Hle; [lia|].
  destruct fuel' as [|fuel']; [lia|]. simpl.
  destruct (queue s) as [|entry q] eqn:Hq; [reflexivity|]. f_equal.
  destruct (step maxSize ft s) as [t|h] eqn:E; [|reflexivity].
  apply IH; [|lia]. apply step_decreases in E. rewrite Hq in E. lia.
Qed.

Lemma dequeued_S maxSize ft fuel s :
  dequeued maxSize ft (S fuel) s
  = match queue s with
    | [] => []
    | entry :: _ =>
        entry :: match step maxSize ft s with
                 | inl t => dequeued maxSize ft fuel t
                 | inr _ => []
                 end
    end.
Proof. reflexivity. Qed.

Lemma dequeued_unfold maxSize ft s :
  dequeued maxSize ft (S (queue_size (queue s))) s
  = match queue s with
    | [] => []
    | entry :: _ =>
        entry :: match step maxSize ft s with
                 | inl t => dequeued maxSize ft (S (queue_size (queue t))) t
                 | inr _ => []
                 end
    end.
Proof.
  rewrite dequeued_S.
  destruct (queue s) as [|entry q] eqn:Hq; [reflexivity|].
  f_equal. destruct (step maxSize ft s) as [t|h] eqn:E; [|reflexivity].
  apply step_decreases in E. rewrite Hq in E.
  apply dequeued_more_fuel; lia.
Qed.

Lemma step_queue_only maxSize ft s s' :
  queue s = queue s' ->
  match step maxSize ft s, step maxSize ft s' with
  | inl t, inl t' => queue t = queue t'
  | inr _, inr _ => True
  | _, _ => False
  end.
Proof.
  destruct s as [q entries], s' as [q' entries']; cbn [queue].
  intros <-. unfold step; cbn [queue fileEntries].
  destruct q as [|[[entryName fullPath call|entryName fullPath reader]|] q];
    auto.
  - destruct call as [f [result|]|]; auto.
  - destruct (readAllDirectoryEntries reader); auto.
Qed.

Lemma dequeued_queue_only maxSize ft fuel :
  forall s s', queue s = queue s' ->
               dequeued maxSize ft fuel s = dequeued maxSize ft fuel s'.
Proof.
  induction fuel as [|fuel IH]; intros s s' Hq; [reflexivity|].
  pose proof (step_queue_only maxSize ft s s' Hq) as H.
  simpl. rewrite <- Hq. destruct (queue s); [reflexivity|]. f_equal.
  destruct (step maxSize ft s) as [t|h], (step maxSize ft s') as [t'|h'];
    try contradiction; [apply IH, H | reflexivity].
Qed.

Lemma step_readable maxSize ft entry q entries :
  readable entry = true ->
  exists entries',
    step maxSize ft {| queue := entry :: q; fileEntries := entries |}
    = inl {| queue := q ++ children entry; fileEntries := entries' |}.
Proof.
  unfold step, readable, children; cbn [queue fileEntries].
  destruct entry as [[entryName fullPath [f [result|]|]|entryName fullPath reader]|];
    try discriminate.
  - intros _. rewrite app_nil_r. eexists. reflexivity.
  - destruct (readAllDirectoryEntries reader); try discriminate.
    intros _. eexists. reflexivity.
  - intros _. rewrite app_nil_r. eexists. reflexivity.
Qed.

Lemma dequeued_level maxSize ft q :
  forallb readable q = true ->
  forall q2 entries,
  exists entries',
    dequeued maxSize ft (S (queue_size (q ++ q2)))
      {| queue := q ++ q2; fileEntries := entries |}
    = q ++ dequeued maxSize ft (S (queue_size (q2 ++ flat_map children q)))
             {| queue := q2 ++ flat_map children q; fileEntries := entries' |}.
Proof.
  induction q as [|entry q IH]; intros Hq q2 entries.
  - exists entries. simpl. rewrite app_nil_r. reflexivity.
  - simpl in Hq. apply andb_true_iff in Hq. destruct Hq as [Hentry Hq].
    destruct (step_readable maxSize ft entry (q ++ q2) entries Hentry)
      as [entries1 Hstep].
    destruct (IH Hq (q2 ++ children entry) entries1) as [entries' Hlevel].
    exists entries'.
    rewrite (dequeued_unfold _ _ {| queue := (entry :: q) ++ q2 |}).
    cbn [queue app]. rewrite Hstep. cbn [queue].
    rewrite <- app_assoc, Hlevel. cbn [flat_map].
    rewrite <- app_assoc. reflexivity.
Qed.

(** The traversal is level by level: when every dropped item can be
    processed (each file loads, each directory can be listed), the loop
    dequeues all of them, in drop order, and only then goes through their
    children, exactly as if those children had been dropped. *)
Theorem dequeued_level_by_level maxSize ft dataTransferItemList :
  forallb readable dataTransferItemList = true ->
  visited maxSize ft dataTransferItemList
  = dataTransferItemList
    ++ visited maxSize ft (flat_map children dataTransferItemList).
Proof.
  intros H.
  destruct (dequeued_level maxSize ft dataTransferItemList H [] [])
    as [entries' Hlevel].
  unfold visited. rewrite app_nil_r in Hlevel. cbn [app] in Hlevel.
  rewrite Hlevel. f_equal.
  apply dequeued_queue_only. reflexivity.
Qed.

Lemma dequeued_level_by_level_witness :
  let leaf n :=
    FileSystemFileEntry n ("/d/" ++ n)
      (successCallback
         {| file_name := n; file_size := 1; file_type := "text/plain" |}
         (onload (Some "data:text/plain;base64,Cg=="))) in
  let d := FileSystemDirectoryEntry "d" "/d" [resolve [leaf "a"; leaf "b"]] in
  let top :=
    FileSystemFileEntry "t" "/t"
      (successCallback
         {| file_name := "t"; file_size := 1; file_type := "text/plain" |}
         (onload (Some "data:text/plain;base64,Cg=="))) in
  visited (-1) other [Some d; None; Some top]
  = [Some d; None; Some top; Some (leaf "a"); Some (leaf "b")].
Proof.
  intros leaf d top.
  exact (dequeued_level_by_level (-1) other [Some d; None; Some top] eq_refl).
Defined.

(** ** The size limit *)

(** Edges of the size test, for a file of a real (non-negative) size: a
    limit of zero, or any negative limit but [-1], lets nothing through; a
    file of exactly [maxSize] bytes is refused; raising a limit never
    refuses a file it let through, and neither does lifting it with [-1]. *)
Theorem maxSize_edges ft f :
  0 <= file_size f ->
  (forall maxSize, maxSize <= 0 -> maxSize <> -1 ->
                   checks maxSize ft f = false)
  /\ checks (file_size f) ft f = false
  /\ (forall maxSize maxSize',
         maxSize <> -1 -> maxSize <= maxSize' ->
         checks maxSize ft f = true -> checks maxSize' ft f = true)
  /\ (forall maxSize,
         checks maxSize ft f = true -> checks (-1) ft f = true).
Proof.
  intros Hsize. repeat split.
  - intros maxSize Hle Hne. apply checks_rejected. intros [[H|H] _]; lia.
  - apply checks_rejected. intros [[H|H] _]; lia.
  - intros maxSize maxSize' Hne Hle H.
    apply checks_accepted in H. apply checks_accepted.
    destruct H as [[H|H] Hm]; [contradiction|]. split; [right; lia | exact Hm].
  - intros maxSize H. apply checks_accepted in H. apply checks_accepted.
    destruct H as [_ Hm]. split; [left; reflexivity | exact Hm].
Qed.

Lemma maxSize_edges_witness :
  checks 0 other {| file_name := "empty"; file_size := 0; file_type := "" |}
  = false.
Proof.
  exact (proj1 (maxSize_edges other
                  {| file_name := "empty"; file_size := 0; file_type := "" |}
                  (Z.le_refl 0))
           0 (Z.le_refl 0) ltac:(discriminate)).
Defined.

(** ** What the entries look like *)

Lemma or_else_nonempty s d : d <> "" -> JS.or_else s d <> "".
Proof. destruct s; simpl; [auto | discriminate]. Qed.

Lemma pushed_mimeType maxSize ft entry :
  Forall (fun e => mimeType e <> "") (pushed maxSize ft entry).
Proof.
  destruct entry as [[entryName fullPath [f [result|]|]|entryName fullPath reader]|];
    simpl; try constructor.
  - destruct (checks maxSize ft f); constructor; [|constructor].
    simpl. apply or_else_nonempty. discriminate.
  - simpl. discriminate.
  - constructor.
Qed.

Lemma onChange_for_mimeType maxSize ft files :
  forall items out,
    Forall (fun e => mimeType e <> "") items ->
    onChange_for maxSize ft files items = Return out ->
    Forall (fun e => mimeType e <> "") out.
Proof.
  induction files as [|[[f [result|]]|] files IH]; intros items out Hitems H;
    simpl in H; try discriminate.
  - injection H as <-. exact Hitems.
  - apply IH in H; [exact H|].
    destruct (checks maxSize ft f); [|exact Hitems].
    apply Forall_app. split; [exact Hitems|].
    constructor; [|constructor]. simpl. apply or_else_nonempty. discriminate.
Qed.

(** No entry handed to [onUploadEnd], by either handler, has an empty
    [mimeType]: a file whose type the platform left empty is reported as
    [application/octet-stream], and such a file gets through the checks
    under category ["other"] only. *)
Theorem mimeType_is_never_empty maxSize ft :
  (forall dataTransfer out,
      In (onUploadEnd out) (fst (onDrop maxSize ft dataTransfer)) ->
      Forall (fun e => mimeType e <> "") out)
  /\ (forall target_files out,
         In (onUploadEnd out) (fst (onChange maxSize ft target_files)) ->
         Forall (fun e => mimeType e <> "") out)
  /\ (forall f result,
         file_type f = "" ->
         mimeType (selected_file f result) = "application/octet-stream"
         /\ (forall entryName fullPath,
                mimeType (dropped_file entryName fullPath f result)
                = "application/octet-stream")
         /\ (checks maxSize ft f = true -> ft = other)).
Proof.
  split; [|split].
  - intros dataTransfer out. unfold onDrop.
    destruct (0 <? files_length dataTransfer)%nat; [|intros []].
    unfold getAllFileEntries, getAllFileEntries_halt, run.
    destruct (while maxSize ft _ _) as [[out'|reason st|st]|] eqn:E;
      cbn [settle fst In]; intros H;
      try (destruct H as [H|[]]; discriminate).
    destruct H as [H|[H|[]]]; [discriminate|]. injection H as ->.
    apply while_output in E. rewrite E. simpl.
    apply Forall_flat_map, Forall_forall. intros entry _.
    apply pushed_mimeType.
  - intros target_files out H. apply onChange_delivers in H.
    destruct H as (files & _ & H).
    apply (onChange_for_mimeType _ _ _ _ _ (Forall_nil _) H).
  - intros f result Hf. unfold selected_file, dropped_file. simpl.
    rewrite Hf. repeat split.
    intros H. apply checks_accepted in H. destruct H as [_ [H|[[H _]|H]]].
    + rewrite Hf in H. destruct ft; discriminate.
    + rewrite Hf in H. discriminate.
    + exact H.
Qed.

(** ** The dialog's filter and the caption *)

(** Whatever the [accept] attribute names gets through the media-type test
    (taken here with [maxSize = -1], which switches the size test off):
    under ["other"] the attribute is ["*"] and every type passes; under
    ["pdf"] it is ["application/pdf"], which passes; under any other
    category [c] it is [c/*] and every type [c/subtype] passes. *)
Theorem accept_names_passing_types ft (f : File) (subtype : string) :
  match ft with
  | other => accept ft = "*" /\ checks (-1) ft f = true
  | pdf =>
      accept ft = "application/pdf"
      /\ (file_type f = "application/pdf" -> checks (-1) ft f = true)
  | _ =>
      accept ft = (literal ft ++ "/*")%string
      /\ (file_type f = (literal ft ++ "/" ++ subtype)%string ->
          checks (-1) ft f = true)
  end.
Proof.
  destruct ft; (split; [reflexivity|]); try intros H;
    unfold checks; rewrite ?H; simpl;
    rewrite ?orb_true_r; reflexivity.
Qed.

(** The caption cannot tell "no limit" from "nothing allowed": for every
    [maxSize] that is zero or negative it reads "... up to 0 GB", the same
    for [-1], under which no file is too large, as for the other values,
    under which every file is. *)
Theorem caption_of_nonpositive_maxSize maxSize ft f :
  maxSize <= 0 ->
  0 <= file_size f ->
  caption maxSize ft = (caption_kind ft ++ " up to 0 GB")%string
  /\ caption (-1) ft = caption maxSize ft
  /\ checks (-1) other f = true
  /\ (maxSize <> -1 -> checks maxSize other f = false).
Proof.
  intros Hle Hsize.
  assert (H : forall m, m <= 0 ->
                        caption m ft = (caption_kind ft ++ " up to 0 GB")%string).
  { intros m Hm. unfold caption.
    rewrite (proj2 (proj2 (proj2 (proj2 (proj2 (proj2
               (formatFileSize_branches m)))))) Hm).
    reflexivity. }
  split; [apply H, Hle|]. split; [rewrite !H by lia; reflexivity|].
  split.
  - apply checks_accepted. split; [left; reflexivity | right; right; reflexivity].
  - intros Hne. apply checks_rejected. intros [[Hm|Hm] _]; lia.
Qed.

Lemma caption_of_nonpositive_maxSize_witness :
  caption 0 image = "Image files up to 0 GB"
  /\ caption (-1) image = caption 0 image
  /\ checks (-1) other
       {| file_name := "a"; file_size := 7; file_type := "image/png" |} = true
  /\ (0 <> -1 ->
      checks 0 other
        {| file_name := "a"; file_size := 7; file_type := "image/png" |} = false).
Proof.
  apply (caption_of_nonpositive_maxSize 0 image
           {| file_name := "a"; file_size := 7; file_type := "image/png" |});
    simpl; lia.
Defined.

(** ** Hover opacity *)

Lemma opacity_after_off events :
  forall opacity, opacity_after false events opacity = opacity.
Proof.
  unfold opacity_after.
  induction events as [|e events IH]; intros opacity; [reflexivity|].
  simpl. destruct e; apply IH.
Qed.

(** With [showOver] off the handlers never touch the opacity.  With it on,
    the opacity after any run of drag events is decided by the last one
    alone: ["0.6"] while dragging over, back to ["1"] after a leave or a
    drop (the drop resets it before anything is read, so also when the
    traversal later fails). *)
Theorem hover_opacity events opacity :
  opacity_after false events opacity = opacity
  /\ (forall e,
         opacity_after true (events ++ [e]) opacity
         = match e with
           | dragover => "0.6"
           | dragleave | drop => "1"
           end).
Proof.
  split; [apply opacity_after_off|].
  intros e. unfold opacity_after. rewrite fold_left_app. destruct e; reflexivity.
Qed.

(** ** What the demo page logs *)

Lemma totFolders_pushed maxSize ft entries :
  Page.totFolders (flat_map (pushed maxSize ft) entries)
  = length (filter is_directory entries).
Proof.
  unfold Page.totFolders.
  induction entries as [|entry entries IH]; [reflexivity|].
  cbn [flat_map]. rewrite filter_app, length_app, IH.
  destruct entry as [[entryName fullPath [f [result|]|]|entryName fullPath reader]|];
    try reflexivity.
  simpl. destruct (checks maxSize ft f); reflexivity.
Qed.

Lemma totFiles_pushed maxSize ft entries :
  Page.totFiles (flat_map (pushed maxSize ft) entries)
  = length (filter (is_accepted_file maxSize ft) entries).
Proof.
  unfold Page.totFiles.
  induction entries as [|entry entries IH]; [reflexivity|].
  cbn [flat_map]. rewrite filter_app, length_app, IH.
  destruct entry as [[entryName fullPath [f [result|]|]|entryName fullPath reader]|];
    try reflexivity.
  simpl. destruct (checks maxSize ft f); reflexivity.
Qed.

Lemma totFiles_totFolders items :
  (Page.totFiles items + Page.totFolders items)%nat = length items.
Proof.
  unfold Page.totFiles, Page.totFolders.
  induction items as [|e items IH]; [reflexivity|].
  simpl. destruct (type e); simpl; lia.
Qed.

(** The two counts the demo page logs for a drop: "Tot Folders" is the
    number of directories the traversal dequeued, "Tot Files" the number of
    dequeued files that loaded and passed the checks, and together they
    account for every entry of the list. *)
Theorem page_counts maxSize ft dataTransferItemList out :
  getAllFileEntries maxSize ft dataTransferItemList = Resolved out ->
  Page.totFolders out
  = length (filter is_directory (visited maxSize ft dataTransferItemList))
  /\ Page.totFiles out
     = length (filter (is_accepted_file maxSize ft)
                 (visited maxSize ft dataTransferItemList))
  /\ (Page.totFiles out + Page.totFolders out)%nat = length out.
Proof.
  unfold getAllFileEntries, getAllFileEntries_halt, run, visited.
  destruct (while maxSize ft _ _) as [[out'|reason st|st]|] eqn:E;
    try discriminate.
  intros H; injection H as <-.
  apply while_output in E. cbn [fileEntries app] in E.
  split; [|split].
  - rewrite E at 1. apply totFolders_pushed.
  - rewrite E at 1. apply totFiles_pushed.
  - apply totFiles_totFolders.
Qed.

Lemma page_counts_witness :
  let leaf n size :=
    FileSystemFileEntry n ("/d/" ++ n)
      (successCallback
         {| file_name := n; file_size := size; file_type := "video/mp4" |}
         (onload (Some "data:video/mp4;base64,AA=="))) in
  let drop_ :=
    [Some (FileSystemDirectoryEntry "d" "/d"
             [resolve [leaf "clip" 2000000; leaf "film" 20000000;
                       FileSystemDirectoryEntry "e" "/d/e" []]])] in
  match getAllFileEntries Page.maxSize Page.fileType_ drop_ with
  | Resolved out => Page.totFolders out = 2%nat /\ Page.totFiles out = 1%nat
  | _ => False
  end.
Proof.
  intros leaf drop_.
  destruct (getAllFileEntries Page.maxSize Page.fileType_ drop_) as [out| |] eqn:E;
    try discriminate.
  destruct (page_counts Page.maxSize Page.fileType_ drop_ out E) as (H1 & H2 & _).
  split; [exact H1 | exact H2].
Defined.

(** ** Selections compose *)

Lemma onChange_for_prepend maxSize ft files :
  forall items out pre,
    onChange_for maxSize ft files items = Return out ->
    onChange_for maxSize ft files (pre ++ items) = Return (pre ++ out).
Proof.
  induction files as [|[[f [result|]]|] files IH]; intros items out pre H;
    simpl in *; try discriminate.
  - injection H as <-. reflexivity.
  - destruct (checks maxSize ft f).
    + rewrite <- app_assoc. apply IH, H.
    + apply IH, H.
Qed.

Lemma onChange_for_app maxSize ft files :
  forall files' items out,
    onChange_for maxSize ft files items = Return out ->
    onChange_for maxSize ft (files ++ files') items
    = onChange_for maxSize ft files' out.
Proof.
  induction files as [|[[f [result|]]|] files IH]; intros files' items out H;
    simpl in *; try discriminate.
  - injection H as <-. reflexivity.
  - apply IH, H.
Qed.

(** The loop of [onChange] keeps nothing from one file to the next and
    removes no duplicates: when two selections are each processed to the
    end, processing one after the other as a single selection returns the
    first list followed by the second. *)
Theorem selections_concatenate maxSize ft files files' out out' :
  onChange_for maxSize ft files [] = Return out ->
  onChange_for maxSize ft files' [] = Return out' ->
  onChange_for maxSize ft (files ++ files') [] = Return (out ++ out').
Proof.
  intros H H'.
  rewrite (onChange_for_app _ _ _ _ _ _ H).
  rewrite <- (app_nil_r out) at 1.
  apply onChange_for_prepend, H'.
Qed.

Lemma selections_concatenate_witness :
  let pick n :=
    Some ({| file_name := n; file_size := 4; file_type := "audio/ogg" |},
          onload (Some "data:audio/ogg;base64,T2dn")) in
  let entry n :=
    {| path := "/"; type := file; name := n; mimeType := "audio/ogg";
       data := "data:audio/ogg;base64,T2dn" |} in
  onChange_for 100 audio ([pick "a"; pick "b"] ++ [pick "a"]) []
  = Return ([entry "a"; entry "b"] ++ [entry "a"]).
Proof.
  intros pick entry.
  exact (selections_concatenate 100 audio [pick "a"; pick "b"] [pick "a"]
           [entry "a"; entry "b"] [entry "a"] eq_refl eq_refl).
Defined.

(** ** The two callbacks *)

